(** * Route itinerary backend: the distance function and the route planner

    A shallow embedding of [src/main.py]: [haversine_km],
    [order_by_proximity] and the [generate_itinerary] handler, with the
    properties of the ordering, of the day partition and of the distance
    total proved over it.

    Python values are modelled as the interpreter has them: a [float] is an
    IEEE-754 binary64 number ([spec_float] with 53 bits of precision), an
    [int] is an unbounded [Z], a [list] is a [list], a call that raises has
    the outcome [Raise e]. *)

From Stdlib Require Import ZArith SpecFloat ssreflect.
From stdpp Require Import base list gmap strings.

Local Open Scope Z_scope.

Set Warnings "-rewrite-rw,-clear-no-such-hyp".

(** ** Exceptions and the error monad

    [OutOfFuel] and [DanglingRef] are not Python exceptions.  The first is
    the outcome of a loop of the model whose iteration bound ran out, the
    second of reading a list object that was never allocated; no run of the
    program produces either ([order_by_proximity_raises],
    [Mut_while_remaining_spec]). *)

Inductive exn : Type :=
| ValueError
| OverflowError
| ZeroDivisionError
| IndexError
| HTTPException (status_code : Z) (detail : string)
| OutOfFuel
| DanglingRef.

#[global] Instance exn_eq_dec : EqDecision exn.
Proof. solve_decision. Defined.

Inductive result (A : Type) : Type :=
| Ok (x : A)
| Raise (e : exn).
Arguments Ok {A} x.
Arguments Raise {A} e.

#[global] Instance result_ret : MRet result := @Ok.
#[global] Instance result_bind : MBind result := λ A B k c,
  match c with
  | Ok x => k x
  | Raise e => Raise e
  end.
#[global] Instance result_fmap : FMap result := λ A B f c,
  match c with
  | Ok x => Ok (f x)
  | Raise e => Raise e
  end.

#[global] Instance result_eq_dec `{EqDecision A} : EqDecision (result A).
Proof. solve_decision. Defined.

Definition is_ok {A} (c : result A) : bool :=
  match c with
  | Ok _ => true
  | Raise _ => false
  end.

(** Computations over a state [S] that return or raise; what was done to
    the state before an exception stays done. *)
Definition stateE (S A : Type) : Type := S → result A * S.

#[global] Instance stateE_ret {S} : MRet (stateE S) := λ A x s, (Ok x, s).
#[global] Instance stateE_bind {S} : MBind (stateE S) := λ A B k c s,
  match c s with
  | (Ok x, s') => k x s'
  | (Raise e, s') => (Raise e, s')
  end.

Definition lift {S A} (c : result A) : stateE S A := λ s, (c, s).

Declare Scope py_scope.
Delimit Scope py_scope with py.
Local Open Scope py_scope.

(** ** Python floats: IEEE-754 binary64 *)

Module Float.

Definition float : Type := spec_float.

Definition prec : Z := 53.
Definition emax : Z := 1024.

(** [make m e] is the binary64 number nearest to [m * 2^e]. *)
Definition make (m e : Z) : float := binary_normalize prec emax m e false.

(** [float(n)] for a Python int. *)
Definition of_int (n : Z) : float := make n 0.

Definition add : float → float → float := SFadd prec emax.
Definition sub : float → float → float := SFsub prec emax.
Definition mul : float → float → float := SFmul prec emax.
Definition div : float → float → float := SFdiv prec emax.
Definition ltb : float → float → bool := SFltb.

Definition is_nan (x : float) : bool :=
  match x with S754_nan => true | _ => false end.

Definition is_finite (x : float) : bool :=
  match x with S754_zero _ | S754_finite _ _ _ => true | _ => false end.

Definition is_inf (x : float) : bool :=
  match x with S754_infinity _ => true | _ => false end.

Definition zero : float := S754_zero false.
Definition one : float := of_int 1.
Definition two : float := of_int 2.

(** [math.pi], the binary64 number [0x1.921fb54442d18p+1]. *)
Definition pi : float := make 0x1921fb54442d18 (-51).

#[global] Instance float_eq_dec : EqDecision float.
Proof. solve_decision. Defined.

End Float.

Import Float.

Infix "+." := Float.add (at level 50, left associativity) : py_scope.
Infix "-." := Float.sub (at level 50, left associativity) : py_scope.
Infix "*." := Float.mul (at level 40, left associativity) : py_scope.
Infix "/." := Float.div (at level 40, left associativity) : py_scope.
Infix "<." := Float.ltb (at level 60, no associativity) : py_scope.

(** ** The [math] module

    [sin], [cos], [atan2] and [pow] are the platform C library's; they are
    not specified bit for bit by IEEE-754, so the development takes them as
    a parameter.  Everything else ([radians], [sqrt], the domain and range
    checks the interpreter wraps around the C functions) is fixed by the
    interpreter and modelled here. *)

Record libm : Type := Libm {
  c_sin : float → float;
  c_cos : float → float;
  c_atan2 : float → float → float;
  c_pow : float → float → float;
}.

Module math.

(** The interpreter's wrapper around a one-argument C function that
    cannot overflow: a NaN result for a non-NaN argument, or an infinite
    result for a finite argument, is a [ValueError] ("math domain
    error"). *)
Definition math_1 (f : float → float) (x : float) : result float :=
  let r := f x in
  if is_nan r && negb (is_nan x) then Raise ValueError
  else if is_inf r && is_finite x then Raise ValueError
  else Ok r.

Definition degToRad : float := pi /. of_int 180.

Definition radians (x : float) : float := x *. degToRad.

Definition sqrt (x : float) : result float := math_1 (SFsqrt prec emax) x.

Definition sin (M : libm) (x : float) : result float := math_1 (c_sin M) x.
Definition cos (M : libm) (x : float) : result float := math_1 (c_cos M) x.

(** The wrapper around a two-argument C function: a NaN result for
    arguments that are not NaN is a [ValueError], an infinite result for
    finite arguments an [OverflowError] ("math range error"). *)
Definition math_2 (f : float → float → float) (x y : float) : result float :=
  let r := f x y in
  if is_nan r && negb (is_nan x) && negb (is_nan y) then Raise ValueError
  else if is_inf r && is_finite x && is_finite y then Raise OverflowError
  else Ok r.

Definition atan2 (M : libm) (y x : float) : result float :=
  math_2 (c_atan2 M) y x.

End math.

(** [x ** y] on floats, for the positive exponent the program uses: the C
    library's [pow]; an infinite result for finite operands is an
    [OverflowError]. *)
Definition float_pow (M : libm) (x y : float) : result float :=
  let r := c_pow M x y in
  if is_inf r && is_finite x && is_finite y then Raise OverflowError
  else Ok r.

(** ** The distance function *)

Section Distance.

Variable M : libm.

(** The haversine term [a] of [haversine_km], with Python's left-to-right
    order of evaluation. *)
Definition haversine_a (lat1 lon1 lat2 lon2 : float) : result float :=
  let dlat := math.radians (lat2 -. lat1) in
  let dlon := math.radians (lon2 -. lon1) in
  s1 ← math.sin M (dlat /. two) ;
  p1 ← float_pow M s1 two ;
  c1 ← math.cos M (math.radians lat1) ;
  c2 ← math.cos M (math.radians lat2) ;
  s2 ← math.sin M (dlon /. two) ;
  p2 ← float_pow M s2 two ;
  Ok (p1 +. c1 *. c2 *. p2).

Definition haversine_km (lat1 lon1 lat2 lon2 : float) : result float :=
  let R := make 6371 0 in
  a ← haversine_a lat1 lon1 lat2 lon2 ;
  sa ← math.sqrt a ;
  sb ← math.sqrt (one -. a) ;
  t ← math.atan2 M sa sb ;
  let c := two *. t in
  Ok (R *. c).

End Distance.

(** ** Python sequences *)

Module pylist.

(** [l.pop(i)] for a non-negative index. *)
Definition pop {A} (l : list A) (i : nat) : result (A * list A) :=
  match l !! i with
  | Some x => Ok (x, delete i l)
  | None => Raise IndexError
  end.

(** [l[-1]]. *)
Definition last {A} (l : list A) : result A :=
  match last l with
  | Some x => Ok x
  | None => Raise IndexError
  end.

Definition len {A} (l : list A) : Z := Z.of_nat (length l).

(** The position a slice bound denotes: negative bounds count from the
    end, and all bounds are clipped to the list. *)
Definition clip {A} (l : list A) (k : Z) : nat :=
  Z.to_nat (if k <? 0 then Z.max 0 (k + len l) else Z.min k (len l)).

(** [l[lo:hi]]. *)
Definition slice {A} (l : list A) (lo hi : Z) : list A :=
  take (clip l hi - clip l lo)%nat (drop (clip l lo) l).

(** [l[k]]. *)
Definition getitem {A} (l : list A) (k : Z) : result A :=
  let k' := if k <? 0 then k + len l else k in
  if k' <? 0 then Raise IndexError
  else match l !! Z.to_nat k' with
       | Some x => Ok x
       | None => Raise IndexError
       end.

(** [range(lo, hi)]. *)
Definition range (lo hi : Z) : list Z := seqZ lo (hi - lo).

End pylist.

(** ** Points

    The dictionaries [generate_itinerary] builds from the stored places and
    hands to the planner. *)

Record point : Type := Point {
  _id : string;
  name : string;
  latitude : float;
  longitude : float;
  category : option string;
}.

#[global] Instance point_eq_dec : EqDecision point.
Proof. solve_decision. Defined.

(** ** The route planner: ordering *)

Section Ordering.

Variable M : libm.

(** The distance from the point at [(last_lat, last_lon)] to [p]. *)
Definition dist_to (last_lat last_lon : float) (p : point) : result float :=
  haversine_km M last_lat last_lon (latitude p) (longitude p).

(** The scan [for i, p in enumerate(remaining)], from position [i] on,
    with the current values of [idx] and [best]. *)
Fixpoint scan (last_lat last_lon : float) (ps : list point)
    (i idx : nat) (best : option float) : result (nat * option float) :=
  match ps with
  | [] => Ok (idx, best)
  | p :: ps' =>
    dist ← dist_to last_lat last_lon p ;
    if (match best with
        | None => true
        | Some b => dist <. b
        end)
    then scan last_lat last_lon ps' (S i) i (Some dist)
    else scan last_lat last_lon ps' (S i) idx best
  end.

(** The loop [while remaining]; [fuel] bounds its iterations. *)
Fixpoint while_remaining (fuel : nat) (remaining ordered : list point)
    : result (list point) :=
  match remaining with
  | [] => Ok ordered
  | _ :: _ =>
    match fuel with
    | O => Raise OutOfFuel
    | S fuel' =>
      last ← pylist.last ordered ;
      let last_lat := latitude last in
      let last_lon := longitude last in
      '(idx, _) ← scan last_lat last_lon remaining 0 0 None ;
      '(p, remaining') ← pylist.pop remaining idx ;
      while_remaining fuel' remaining' (ordered ++ [p])
    end
  end.

Definition order_by_proximity (points : list point) : result (list point) :=
  match points with
  | [] => Ok []
  | _ :: _ =>
    let remaining := points in
    '(first, remaining) ← pylist.pop remaining 0 ;
    let ordered := [first] in
    while_remaining (length remaining) remaining ordered
  end.

End Ordering.

(** ** The ordering over a store of list objects

    The same function with Python's lists as mutable objects: a variable
    holds a reference, [copy] and a list display allocate, [pop] and
    [append] update the object in place. *)

Module Mut.

Abbreviation loc := nat (only parsing).
Abbreviation heap := (gmap nat (list point)) (only parsing).

Definition alloc (l : list point) : stateE heap loc :=
  λ h, let r := fresh (dom h) in (Ok r, <[r := l]> h).

Definition read (r : loc) : stateE heap (list point) :=
  λ h, match h !! r with
       | Some l => (Ok l, h)
       | None => (Raise DanglingRef, h)
       end.

Definition write (r : loc) (l : list point) : stateE heap () :=
  λ h, (Ok (), <[r := l]> h).

(** [r.copy()] *)
Definition copy (r : loc) : stateE heap loc :=
  l ← read r ; alloc l.

(** [r.pop(i)] *)
Definition pop (r : loc) (i : nat) : stateE heap point :=
  l ← read r ;
  '(x, l') ← lift (pylist.pop l i) ;
  _ ← write r l' ;
  mret x.

(** [r.append(x)] *)
Definition append (r : loc) (x : point) : stateE heap () :=
  l ← read r ; write r (l ++ [x]).

Section Ordering.

Variable M : libm.

Fixpoint while_remaining (fuel : nat) (remaining ordered : loc)
    : stateE heap () :=
  rs ← read remaining ;
  match rs with
  | [] => mret ()
  | _ :: _ =>
    match fuel with
    | O => lift (Raise OutOfFuel)
    | S fuel' =>
      os ← read ordered ;
      last ← lift (pylist.last os) ;
      let last_lat := latitude last in
      let last_lon := longitude last in
      '(idx, _) ← lift (scan M last_lat last_lon rs 0 0 None) ;
      p ← pop remaining idx ;
      _ ← append ordered p ;
      while_remaining fuel' remaining ordered
    end
  end.

Definition order_by_proximity (points : loc) : stateE heap loc :=
  ps ← read points ;
  match ps with
  | [] => alloc []
  | _ :: _ =>
    remaining ← copy points ;
    first ← pop remaining 0 ;
    ordered ← alloc [first] ;
    rs ← read remaining ;
    _ ← while_remaining (length rs) remaining ordered ;
    mret ordered
  end.

End Ordering.

End Mut.

(** ** [round(x, ndigits)] on floats

    For [ndigits >= 0] the interpreter rounds the exact value of [x] to
    [ndigits] decimal places, ties to even, and converts that decimal back
    to the nearest float; infinities and NaN round to themselves.  (The
    decimal is no larger in magnitude than the largest float, so the
    interpreter's overflow check on the conversion never fires for
    [ndigits >= 0].) *)

Definition round_half_even (num den : Z) : Z :=
  let q := num / den in
  let r := num mod den in
  match 2 * r ?= den with
  | Lt => q
  | Gt => q + 1
  | Eq => if Z.even q then q else q + 1
  end.

Definition float_round (x : float) (ndigits : nat) : float :=
  match x with
  | S754_finite s m e =>
    let p10 := 10 ^ Z.of_nat ndigits in
    let n := round_half_even (Z.pos m * 2 ^ Z.max e 0 * p10) (2 ^ Z.max (- e) 0) in
    match n with
    | Z.pos n' =>
      SFdiv prec emax (S754_finite s n' 0) (S754_finite false (Z.to_pos p10) 0)
    | _ => S754_zero s
    end
  | _ => x
  end.

(** ** Schemas ([src/schemas.py]) *)

Record date : Type := Date { year : Z; month : Z; day_of_month : Z }.

Record DayPlan : Type := mkDayPlan {
  day : Z;
  place_ids : list string;
}.

Record Itinerary : Type := mkItinerary {
  user_id : string;
  title : string;
  start_date : option date;
  days : list DayPlan;
  total_distance_km : option float;
}.

(** A stored place: a document of the "place" collection, [_id] already in
    its string form. *)
Record place_doc : Type := mkPlace {
  doc_id : string;
  doc_user_id : string;
  doc_name : string;
  doc_latitude : float;
  doc_longitude : float;
  doc_category : option string;
  doc_notes : option string;
}.

Record GenerateRequest : Type := mkGenerateRequest {
  req_user_id : string;
  req_days : Z;
  req_start_date : option date;
  req_title : option string;
}.

(** ** The route planner: day partitioning *)

Section Partition.

Variable M : libm.

(** [per_day = max(1, len(ordered) // days + (1 if len(ordered) % days else 0))] *)
Definition per_day_of (n days : Z) : result Z :=
  if days =? 0 then Raise ZeroDivisionError
  else Ok (Z.max 1 (n / days + (if n mod days =? 0 then 0 else 1))).

(** The loop [for j in range(1, len(day_places))] adding to
    [total_distance]. *)
Fixpoint day_distance (day_places : list point) (js : list Z)
    (total_distance : float) : result float :=
  match js with
  | [] => Ok total_distance
  | j :: js' =>
    a ← pylist.getitem day_places (j - 1) ;
    b ← pylist.getitem day_places j ;
    d ← haversine_km M (latitude a) (longitude a) (latitude b) (longitude b) ;
    day_distance day_places js' (total_distance +. d)
  end.

(** The loop [for i in range(req.days)], from the remaining indices [ixs]
    on, with the current values of [days] and [total_distance]. *)
Fixpoint day_loop (ordered : list point) (per_day : Z) (ixs : list Z)
    (days : list DayPlan) (total_distance : float)
    : result (list DayPlan * float) :=
  match ixs with
  | [] => Ok (days, total_distance)
  | i :: ixs' =>
    let day_places := pylist.slice ordered (i * per_day) ((i + 1) * per_day) in
    if bool_decide (day_places = []) && (1 <=? i) then
      Ok (days, total_distance)
    else
      total_distance ←
        day_distance day_places (pylist.range 1 (pylist.len day_places))
          total_distance ;
      day_loop ordered per_day ixs'
        (days ++ [mkDayPlan (i + 1) (_id <$> day_places)]) total_distance
  end.

(** Lines 141-155 of [generate_itinerary]: the day plans and the distance
    total of an ordered route. *)
Definition split_days (ordered : list point) (req_days : Z)
    : result (list DayPlan * float) :=
  per_day ← per_day_of (pylist.len ordered) req_days ;
  day_loop ordered per_day (pylist.range 0 req_days) [] zero.

End Partition.

(** ** The document store

    Modelled from the spec: [database.py] ([get_documents],
    [create_document]) is not part of the sources.  The store answers a
    query by filter over the "place" collection with the matching place
    records, and a create on the "itinerary" collection stores the itinerary
    and returns the identifier it assigned.  Every call is logged, so that
    what a handler asked of the store can be stated. *)

Inductive db_call : Type :=
| CallGetDocuments (collection : string) (user : string)
| CallCreateDocument (collection : string).

Record db : Type := mkDb {
  place_coll : list place_doc;
  itinerary_coll : list (string * Itinerary);
  calls : list db_call;
}.

(** A handler: a computation over the store that returns or raises. *)
Abbreviation handler := (stateE db).

Section Handlers.

Variable M : libm.

(** The identifier the store assigns to a new document. *)
Variable new_id : db → string.

Definition get_documents_place (user : string) : handler (list place_doc) :=
  λ s,
    (Ok (filter (λ p, doc_user_id p = user) (place_coll s)),
     mkDb (place_coll s) (itinerary_coll s)
       (calls s ++ [CallGetDocuments "place" user])).

Definition create_document_itinerary (it : Itinerary) : handler string :=
  λ s,
    let id := new_id s in
    (Ok id,
     mkDb (place_coll s) (itinerary_coll s ++ [(id, it)])
       (calls s ++ [CallCreateDocument "itinerary"])).

(** The dictionary built for a stored place [p]. *)
Definition place_point (p : place_doc) : point :=
  Point (doc_id p) (doc_name p) (doc_latitude p) (doc_longitude p)
    (doc_category p).

(** [req.title or "Smart Itinerary"]: an absent or empty title gives the
    default. *)
Definition title_or_default (t : option string) : string :=
  match t with
  | Some t => if bool_decide (t = "") then "Smart Itinerary" else t
  | None => "Smart Itinerary"
  end.

Definition generate_itinerary (req : GenerateRequest)
    : handler (string * Itinerary) :=
  places ← get_documents_place (req_user_id req) ;
  if bool_decide (places = []) then
    lift (Raise (HTTPException 400 "No saved places found for this user"))
  else
    let place_points := place_point <$> places in
    ordered ← lift (order_by_proximity M place_points) ;
    '(days, total_distance) ← lift (split_days M ordered (req_days req)) ;
    let itinerary :=
      mkItinerary (req_user_id req)
        (title_or_default (req_title req))
        (req_start_date req) days (Some (float_round total_distance 2)) in
    itinerary_id ← create_document_itinerary itinerary ;
    mret (itinerary_id, itinerary).

End Handlers.

(** ** A sample of the C library

    The values glibc's [sin], [cos] and [atan2] return at the arguments the
    examples below reach, and [pow(x, 2.0)] as the correctly rounded square
    (which it is at these arguments).  Elsewhere the sample answers NaN; no
    example evaluates it there. *)

Module Sample.

Fixpoint tab_lookup {A} `{EqDecision A} (tab : list (A * float)) (x : A) : float :=
  match tab with
  | [] => S754_nan
  | (k, v) :: tab' => if bool_decide (k = x) then v else tab_lookup tab' x
  end.

Definition half_pi : float := make 0x1921fb54442d18 (-52).

(** [radians(8.0)] and the values at it. *)
Definition rad8 : float := make 0x11df46a2529d39 (-55).
Definition sin_rad8 : float := make 0x11d06c968d9e19 (-55).
Definition cos_rad8 : float := make 0x1fb046a930947a (-53).

Definition sin_tab : list (float * float) :=
  [ (zero, zero);
    (half_pi, one);
    (SFopp half_pi, SFopp one);
    (SFopp rad8, SFopp sin_rad8) ].

Definition cos_tab : list (float * float) :=
  [ (zero, one);
    (rad8, cos_rad8);
    (SFopp rad8, cos_rad8) ].

Definition atan2_tab : list (float * float * float) :=
  [ ((zero, one), zero);
    ((one, zero), half_pi) ].

Definition glibc : libm :=
  {| c_sin := tab_lookup sin_tab;
     c_cos := tab_lookup cos_tab;
     c_atan2 := λ y x, tab_lookup atan2_tab (y, x);
     c_pow := λ x y, if bool_decide (y = two) then x *. x else S754_nan |}.

(** Places on the equator, at longitudes 0 and 180, and two places at
    latitudes 8 and -8 on opposite meridians. *)
Definition pt (id : string) (lat lon : Z) : point :=
  Point id id (of_int lat) (of_int lon) None.

Definition A1 : point := pt "a1" 0 0.
Definition A2 : point := pt "a2" 0 0.
Definition A3 : point := pt "a3" 0 0.
Definition B1 : point := pt "b1" 0 180.
Definition B2 : point := pt "b2" 0 180.
Definition N8 : point := pt "n8" 8 0.
Definition S8 : point := pt "s8" (-8) 180.

(** Half the circumference of the sphere, [6371.0 * pi]. *)
Definition half_turn_km : float := make 0x138bc58e10e572 (-38).

(** A store with the places of two users and no itinerary. *)
Definition doc (id user : string) (lat lon : Z) : place_doc :=
  mkPlace id user id (of_int lat) (of_int lon) None None.

Definition store : db :=
  mkDb [doc "a1" "ann" 0 0; doc "b1" "ann" 0 180; doc "x1" "bob" 0 0;
        doc "a2" "ann" 0 0] [] [].

Definition request (user : string) (days : Z) : GenerateRequest :=
  mkGenerateRequest user days None None.

Definition new_id (s : db) : string := "itinerary-1".

(** A heap with one list object. *)
Definition heap1 : gmap nat (list point) := {[ 0%nat := [A1; B1; A2] ]}.

End Sample.

(** * Vocabulary of the properties *)

(** Which exceptions a computation may raise. *)
Definition raises_only {A} (P : exn → Prop) (c : result A) : Prop :=
  ∀ e, c = Raise e → P e.

(** The exceptions of the [math] module and of [**]. *)
Definition math_error (e : exn) : Prop := e = ValueError ∨ e = OverflowError.

(** A binary64 number: a finite one has at most 53 digits at the exponent
    the format gives it.  Every Python [float] is one. *)
Definition is_binary64 (x : float) : bool := valid_binary prec emax x.

(** [0 <= a <= 1]. *)
Definition in_unit_interval (a : float) : bool := SFleb zero a && SFleb a one.

(** All the distances the planner may ask for between points of [ps] are
    defined: the distance function returns on each pair. *)
Definition distances_defined (M : libm) (ps : list point) : Prop :=
  Forall (λ p, Forall (λ q,
    is_ok (dist_to M (latitude p) (longitude p) q) = true) ps) ps.

#[global] Instance distances_defined_dec M ps : Decision (distances_defined M ps).
Proof. unfold distances_defined. apply _. Defined.

(** The computation returns, and returns a number (not NaN). *)
Definition is_number (c : result float) : bool :=
  match c with
  | Ok d => negb (is_nan d)
  | Raise _ => false
  end.

(** The distances between the points of [ps] are defined and are numbers. *)
Definition distances_numbers (M : libm) (ps : list point) : Prop :=
  Forall (λ p, Forall (λ q,
    is_number (dist_to M (latitude p) (longitude p) q) = true) ps) ps.

#[global] Instance distances_numbers_dec M ps : Decision (distances_numbers M ps).
Proof. unfold distances_numbers. apply _. Defined.

Section GreedySpec.

Variable M : libm.

(** The planner's rule, in the words of its description: the point at
    position [idx] of [remaining] has the minimum distance to the point at
    [(lat, lon)], and every point before it is strictly farther. *)
Definition nearest_first (lat lon : float) (remaining : list point) (idx : nat) : Prop :=
  ∃ p d, remaining !! idx = Some p ∧ dist_to M lat lon p = Ok d ∧
    (∀ j q dq, remaining !! j = Some q → dist_to M lat lon q = Ok dq →
       dq <. d = false) ∧
    (∀ j q dq, (j < idx)%nat → remaining !! j = Some q →
       dist_to M lat lon q = Ok dq → d <. dq = true).

(** [greedy_from remaining last route]: [route] visits the points of
    [remaining], each time moving to the point chosen by [nearest_first]
    from the point reached last. *)
Inductive greedy_from : list point → point → list point → Prop :=
| greedy_done last : greedy_from [] last []
| greedy_next remaining last idx p route :
    nearest_first (latitude last) (longitude last) remaining idx →
    remaining !! idx = Some p →
    greedy_from (delete idx remaining) p route →
    greedy_from remaining last (p :: route).

(** What the scan knows after the points [pre]. *)
Definition scan_inv (lat lon : float) (pre : list point) (idx : nat)
    (best : option float) : Prop :=
  match best with
  | None => pre = []
  | Some b => nearest_first lat lon pre idx ∧
              ∃ p, pre !! idx = Some p ∧ dist_to M lat lon p = Ok b
  end.

End GreedySpec.

(** The pairs of consecutive points of one day. *)
Definition adjacent (day_places : list point) : list (point * point) :=
  zip day_places (tail day_places).

Definition pair_dist (M : libm) (ab : point * point) : result float :=
  haversine_km M (latitude ab.1) (longitude ab.1) (latitude ab.2) (longitude ab.2).

(** The distances of [pairs], added to [total] one after the other. *)
Fixpoint add_distances (M : libm) (pairs : list (point * point)) (total : float)
    : result float :=
  match pairs with
  | [] => Ok total
  | ab :: pairs' => d ← pair_dist M ab ; add_distances M pairs' (total +. d)
  end.

(** The slices the day loop emits for the indices [ixs]. *)
Fixpoint day_slices (ordered : list point) (per_day : Z) (ixs : list Z)
    : list (list point) :=
  match ixs with
  | [] => []
  | i :: ixs' =>
    let day_places := pylist.slice ordered (i * per_day) ((i + 1) * per_day) in
    if bool_decide (day_places = []) && (1 <=? i) then []
    else day_places :: day_slices ordered per_day ixs'
  end.

(** The day plans of consecutive slices, numbered from [i + 1]. *)
Fixpoint plans_from (i : Z) (slices : list (list point)) : list DayPlan :=
  match slices with
  | [] => []
  | s :: slices' => mkDayPlan (i + 1) (_id <$> s) :: plans_from (i + 1) slices'
  end.

(** The places stored for [user]. *)
Definition user_places (user : string) (s : db) : list place_doc :=
  filter (λ p, doc_user_id p = user) (place_coll s).

(** The store after the query for the places of [user]: the same
    collections, one more call in the log. *)
Definition after_get (user : string) (s : db) : db :=
  mkDb (place_coll s) (itinerary_coll s)
    (calls s ++ [CallGetDocuments "place" user]).

(** The itinerary built from the day plans and the distance total. *)
Definition itinerary_of (req : GenerateRequest) (ds : list DayPlan)
    (total_distance : float) : Itinerary :=
  mkItinerary (req_user_id req) (title_or_default (req_title req))
    (req_start_date req) ds (Some (float_round total_distance 2)).

(** ** The other endpoints and their schemas

    [Place] ([src/schemas.py]) bounds the latitude to [[-90, 90]] and the
    longitude to [[-180, 180]]; [GenerateRequest] bounds [days] to
    [[1, 14]].  A value outside its bounds (NaN included, for which every
    comparison is false) fails validation. *)

Record SavePlaceRequest : Type := mkSavePlaceRequest {
  sp_user_id : string;
  sp_name : string;
  sp_latitude : float;
  sp_longitude : float;
  sp_category : option string;
  sp_notes : option string;
}.

Record Place : Type := mkPlaceModel {
  pl_user_id : string;
  pl_name : string;
  pl_latitude : float;
  pl_longitude : float;
  pl_category : option string;
  pl_notes : option string;
}.

(** [ge=lo, le=hi] on a float field. *)
Definition in_bounds (lo hi : Z) (x : float) : bool :=
  SFleb (of_int lo) x && SFleb x (of_int hi).

(** The [Place] built from the fields of the payload: the validation
    error is a [ValueError] (pydantic's [ValidationError] is one). *)
Definition Place_of (payload : SavePlaceRequest) : result Place :=
  if in_bounds (-90) 90 (sp_latitude payload) &&
     in_bounds (-180) 180 (sp_longitude payload)
  then Ok (mkPlaceModel (sp_user_id payload) (sp_name payload)
             (sp_latitude payload) (sp_longitude payload)
             (sp_category payload) (sp_notes payload))
  else Raise ValueError.

(** [days: int = Field(1, ge=1, le=14)]: the requests that reach the
    handler. *)
Definition GenerateRequest_valid (req : GenerateRequest) : Prop :=
  1 ≤ req_days req ≤ 14.

Section MoreHandlers.

Variable new_id : db → string.

(** Modelled from the spec: [create_document] on the "place" collection
    stores the place under the identifier the store assigns and returns
    that identifier; [get_documents] on the "itinerary" collection answers
    with the itineraries of the user. *)
Definition create_document_place (p : Place) : handler string :=
  λ s,
    let id := new_id s in
    (Ok id,
     mkDb (place_coll s ++
             [mkPlace id (pl_user_id p) (pl_name p) (pl_latitude p)
                (pl_longitude p) (pl_category p) (pl_notes p)])
       (itinerary_coll s)
       (calls s ++ [CallCreateDocument "place"])).

Definition get_documents_itinerary (user : string)
    : handler (list (string * Itinerary)) :=
  λ s,
    (Ok (filter (λ d, user_id d.2 = user) (itinerary_coll s)),
     mkDb (place_coll s) (itinerary_coll s)
       (calls s ++ [CallGetDocuments "itinerary" user])).

Definition save_place (payload : SavePlaceRequest) : handler string :=
  place ← lift (Place_of payload) ;
  place_id ← create_document_place place ;
  mret place_id.

(** The loop over the documents turns each [_id] into its string, which is
    how the model holds it already. *)
Definition list_places (user : string) : handler (list place_doc) :=
  docs ← get_documents_place user ;
  mret docs.

Definition list_itineraries (user : string)
    : handler (list (string * Itinerary)) :=
  docs ← get_documents_itinerary user ;
  mret docs.

End MoreHandlers.

(** The stored places all have coordinates within the bounds of [Place]. *)
Definition places_in_bounds (s : db) : Prop :=
  Forall (λ d, in_bounds (-90) 90 (doc_latitude d) = true ∧
               in_bounds (-180) 180 (doc_longitude d) = true) (place_coll s).

(** [sin(radians(d) / 2) ** 2], the term [haversine_km] computes for the
    difference of the latitudes and for that of the longitudes. *)
Definition sin2_half (M : libm) (d : float) : result float :=
  s ← math.sin M (math.radians d /. two) ; float_pow M s two.

(** More sample data: requests to save a place, a store whose places are
    nearly antipodal, a point without a latitude, and the sample of the C
    library completed into an odd sine. *)
Module SampleApi.

Definition payload (user name : string) (lat lon : Z) : SavePlaceRequest :=
  mkSavePlaceRequest user name (of_int lat) (of_int lon) None None.

Definition new_place_id (s : db) : string := "place-new".

Definition antipodal_store : db :=
  mkDb [Sample.doc "n8" "dan" 8 0; Sample.doc "s8" "dan" (-8) 180] [] [].

Definition nowhere : point := Point "nowhere" "nowhere" S754_nan zero None.

Definition sign_bit (x : float) : bool :=
  match x with
  | S754_zero s | S754_infinity s | S754_finite s _ _ => s
  | S754_nan => false
  end.

(** The odd function that agrees with [f] on the numbers of positive
    sign. *)
Definition odd_part (f : float → float) (x : float) : float :=
  if sign_bit x then SFopp (f (SFopp x)) else f x.

Definition glibc_odd : libm :=
  {| c_sin := odd_part (c_sin Sample.glibc);
     c_cos := c_cos Sample.glibc;
     c_atan2 := c_atan2 Sample.glibc;
     c_pow := c_pow Sample.glibc |}.

End SampleApi.

(** Case analysis on the comparisons of exponents and mantissas. *)
Ltac cmp_cases :=
  repeat match goal with
  | H : context [Pos.compare_cont Eq ?a ?b] |- _ =>
    change (Pos.compare_cont Eq a b) with (Pos.compare a b) in *
  | |- context [Pos.compare_cont Eq ?a ?b] =>
    change (Pos.compare_cont Eq a b) with (Pos.compare a b) in *
  | H : context [Z.compare ?a ?b] |- _ => destruct (Z.compare_spec a b); simpl in H
  | |- context [Z.compare ?a ?b] => destruct (Z.compare_spec a b); simpl
  | H : context [Pos.compare ?a ?b] |- _ => destruct (Pos.compare_spec a b); simpl in H
  | |- context [Pos.compare ?a ?b] => destruct (Pos.compare_spec a b); simpl
  end; try done; try lia.

(** * Properties *)

(** ** The error monad *)

Lemma bind_Ok {A B} (c : result A) (k : A → result B) (y : B) :
  c ≫= k = Ok y ↔ ∃ x, c = Ok x ∧ k x = Ok y.
Proof.
  destruct c as [x|e]; simpl; split.
  - eauto.
  - by intros (? & [= <-] & ?).
  - done.
  - by intros (? & [=] & ?).
Qed.

Lemma bind_Raise {A B} (c : result A) (k : A → result B) (e : exn) :
  c ≫= k = Raise e ↔ c = Raise e ∨ ∃ x, c = Ok x ∧ k x = Raise e.
Proof.
  destruct c as [x|e']; simpl; split.
  - eauto.
  - by intros [[=]|(? & [= <-] & ?)].
  - intros [= <-]; eauto.
  - by intros [[= <-]|(? & [=] & ?)].
Qed.

Lemma raises_only_bind {A B} (P : exn → Prop) (c : result A) (k : A → result B) :
  raises_only P c → (∀ x, c = Ok x → raises_only P (k x)) →
  raises_only P (c ≫= k).
Proof.
  intros Hc Hk e [He|(x & Hx & He)]%bind_Raise; [by apply Hc|by eapply Hk].
Qed.

Lemma raises_only_Ok {A} (P : exn → Prop) (x : A) : raises_only P (Ok x).
Proof. by intros e. Qed.

Lemma raises_only_weaken {A} (P Q : exn → Prop) (c : result A) :
  (∀ e, P e → Q e) → raises_only P c → raises_only Q c.
Proof. intros HPQ Hc e He. by apply HPQ, Hc. Qed.

(** ** The distance function *)

Lemma math_1_raises f x : raises_only (λ e, e = ValueError) (math.math_1 f x).
Proof.
  intros e. unfold math.math_1.
  repeat case_match; congruence.
Qed.

Lemma math_2_raises f x y : raises_only math_error (math.math_2 f x y).
Proof.
  intros e. unfold math.math_2, math_error.
  repeat case_match; naive_solver.
Qed.

Lemma math_2_Ok f x y r : math.math_2 f x y = Ok r → r = f x y.
Proof. unfold math.math_2. repeat case_match; congruence. Qed.

Lemma float_pow_raises M x y : raises_only (λ e, e = OverflowError) (float_pow M x y).
Proof.
  intros e. unfold float_pow. case_match; congruence.
Qed.

Lemma haversine_a_raises M lat1 lon1 lat2 lon2 :
  raises_only math_error (haversine_a M lat1 lon1 lat2 lon2).
Proof.
  unfold haversine_a, math.sin, math.cos.
  repeat (apply raises_only_bind; [|intros ??]);
    try apply raises_only_Ok;
    (eapply raises_only_weaken; [|apply math_1_raises || apply float_pow_raises]);
    unfold math_error; naive_solver.
Qed.

Lemma haversine_km_raises M lat1 lon1 lat2 lon2 :
  raises_only math_error (haversine_km M lat1 lon1 lat2 lon2).
Proof.
  unfold haversine_km, math.sqrt, math.atan2.
  apply raises_only_bind; [apply haversine_a_raises|intros ??].
  repeat (apply raises_only_bind; [|intros ??]);
    try apply raises_only_Ok; try apply math_2_raises;
    (eapply raises_only_weaken; [|apply math_1_raises]);
    unfold math_error; naive_solver.
Qed.

(** [math.sqrt] raises on every number below zero, minus infinity
    included, and only ever raises [ValueError]. *)
Lemma sqrt_negative x : x <. zero = true → math.sqrt x = Raise ValueError.
Proof. by destruct x as [[]|[]| |[] m e]. Qed.

Lemma sqrt_Ok x r :
  math.sqrt x = Ok r → r = SFsqrt prec emax x ∧ x <. zero = false.
Proof.
  intros Hr. split.
  - unfold math.sqrt, math.math_1 in Hr. repeat case_match; congruence.
  - destruct (x <. zero) eqn:Hx; [|done].
    by rewrite (sqrt_negative x Hx) in Hr.
Qed.

Lemma haversine_km_unfold M lat1 lon1 lat2 lon2 a :
  haversine_a M lat1 lon1 lat2 lon2 = Ok a →
  haversine_km M lat1 lon1 lat2 lon2 =
    (sa ← math.sqrt a ;
     sb ← math.sqrt (one -. a) ;
     t ← math.atan2 M sa sb ;
     Ok (make 6371 0 *. (two *. t))).
Proof. intros Ha. unfold haversine_km. by rewrite Ha. Qed.

(** ** Square roots of binary64 numbers

    [math.sqrt] returns on every binary64 number that is not below zero:
    the root is rounded from a mantissa that is not negative, so it is not
    NaN, and it is too small to overflow. *)

Lemma digits2_pos_bounds p :
  2 ^ (Z.pos (digits2_pos p) - 1) ≤ Z.pos p < 2 ^ Z.pos (digits2_pos p).
Proof.
  induction p as [p IH|p IH|]; cbn [digits2_pos]; [| |done].
  all: rewrite Pos2Z.inj_succ.
  all: replace (Z.succ (Z.pos (digits2_pos p)) - 1) with
         (Z.succ (Z.pos (digits2_pos p) - 1)) by lia.
  all: rewrite !Z.pow_succ_r; lia.
Qed.

Lemma Zdigits2_nonneg n : 0 ≤ Zdigits2 n.
Proof. by destruct n. Qed.

Lemma Zdigits2_lt_pow n : 0 ≤ n → n < 2 ^ Zdigits2 n.
Proof.
  destruct n as [|p|p]; [done| |lia]. intros _. apply digits2_pos_bounds.
Qed.

Lemma Zdigits2_le n k : 0 ≤ k → n < 2 ^ k → 0 ≤ n → Zdigits2 n ≤ k.
Proof.
  intros Hk Hn Hn0. destruct n as [|p|p]; [done| |lia]. cbn [Zdigits2].
  pose proof (digits2_pos_bounds p) as [Hlo _].
  destruct (Z.le_gt_cases (Z.pos (digits2_pos p)) k) as [|Hgt]; [done|].
  assert (2 ^ k ≤ 2 ^ (Z.pos (digits2_pos p) - 1)); [|lia].
  apply Z.pow_le_mono_r; lia.
Qed.

Lemma shr_1_div2 mrs : 0 ≤ shr_m mrs → shr_m (shr_1 mrs) = shr_m mrs / 2.
Proof.
  destruct mrs as [[|[p|p|]|p] r s]; cbn [shr_m shr_1]; try done; try lia.
  - intros _. apply (Z.div_unique _ _ _ 1); lia.
  - intros _. apply (Z.div_unique _ _ _ 0); lia.
Qed.

Lemma iter_shr_1_div p mrs :
  0 ≤ shr_m mrs → shr_m (SpecFloat.iter_pos shr_1 p mrs) = shr_m mrs / 2 ^ Z.pos p.
Proof.
  revert mrs. induction p as [p IH|p IH|]; intros mrs Hm; cbn [SpecFloat.iter_pos].
  - have H1 : 0 ≤ shr_m (shr_1 mrs).
    { rewrite shr_1_div2 //. apply Z.div_pos; lia. }
    have H2 : 0 ≤ shr_m (SpecFloat.iter_pos shr_1 p (shr_1 mrs)).
    { rewrite IH //. apply Z.div_pos; lia. }
    rewrite IH // IH // shr_1_div2 // !Z.div_div; try lia.
    f_equal. replace (Z.pos p~1) with (1 + Z.pos p + Z.pos p) by lia.
    rewrite !Z.pow_add_r; lia.
  - have H2 : 0 ≤ shr_m (SpecFloat.iter_pos shr_1 p mrs).
    { rewrite IH //. apply Z.div_pos; lia. }
    rewrite IH // IH // !Z.div_div; try lia.
    f_equal. replace (Z.pos p~0) with (Z.pos p + Z.pos p) by lia.
    rewrite !Z.pow_add_r; lia.
  - by rewrite shr_1_div2.
Qed.

Lemma shr_m_record_of_loc m l : shr_m (shr_record_of_loc m l) = m.
Proof. by destruct l as [|[]]. Qed.

Lemma shr_fexp_spec m e l mrs' e' :
  0 ≤ m →
  shr_fexp prec emax m e l = (mrs', e') →
  e' = Z.max e (fexp prec emax (Zdigits2 m + e)) ∧
  shr_m mrs' = m / 2 ^ (e' - e).
Proof.
  intros Hm. unfold shr_fexp, shr.
  destruct (fexp prec emax (Zdigits2 m + e) - e) as [|p|p] eqn:Hn;
    intros [= <- <-].
  - rewrite shr_m_record_of_loc Z.sub_diag Z.div_1_r. lia.
  - rewrite iter_shr_1_div shr_m_record_of_loc //.
    split; [lia|]. f_equal. f_equal. lia.
  - rewrite shr_m_record_of_loc Z.sub_diag Z.div_1_r. lia.
Qed.

Lemma Zdigits2_div_pow m k :
  0 ≤ m → 0 ≤ k → Zdigits2 (m / 2 ^ k) ≤ Z.max 0 (Zdigits2 m - k).
Proof.
  intros Hm Hk. pose proof (Zdigits2_lt_pow m Hm) as Hlt.
  pose proof (Zdigits2_nonneg m) as Hd.
  have Hpow : 0 < 2 ^ k by apply Z.pow_pos_nonneg; lia.
  destruct (Z.le_gt_cases k (Zdigits2 m)) as [Hle|Hgt].
  - rewrite Z.max_r; [lia|]. apply Zdigits2_le; [lia| |by apply Z.div_pos].
    apply Z.div_lt_upper_bound; [done|].
    rewrite -Z.pow_add_r; [lia..|]. by replace (k + (Zdigits2 m - k)) with (Zdigits2 m) by lia.
  - rewrite Z.div_small; [|simpl; lia]. split; [done|].
    apply Z.lt_le_trans with (2 ^ Zdigits2 m); [done|].
    apply Z.pow_le_mono_r; lia.
Qed.

Lemma round_nearest_even_bounds m l :
  m ≤ round_nearest_even m l ≤ m + 1.
Proof. destruct l as [|[]]; cbn; try case_match; lia. Qed.

Lemma Zdigits2_succ m r :
  0 ≤ m → m ≤ r ≤ m + 1 → Zdigits2 r ≤ Zdigits2 m + 1.
Proof.
  intros Hm Hr. pose proof (Zdigits2_lt_pow m Hm) as Hlt.
  pose proof (Zdigits2_nonneg m) as Hd.
  apply Zdigits2_le; [lia| |lia].
  rewrite Z.pow_succ_r //. lia.
Qed.

(** What rounding to binary64 gives for a mantissa that is not negative:
    never NaN, the sign asked for, and when finite at most 53 digits with an
    exponent of at most 971. *)
Lemma binary_round_aux_cases s m e l :
  0 ≤ m →
  match binary_round_aux prec emax s m e l with
  | S754_nan => False
  | S754_finite s' m' e' => s' = s ∧ Z.pos (digits2_pos m') ≤ 53 ∧ e' ≤ 971
  | S754_zero s' | S754_infinity s' => s' = s
  end.
Proof.
  intros Hm. unfold binary_round_aux.
  destruct (shr_fexp prec emax m e l) as [mrs1 e1] eqn:H1.
  apply shr_fexp_spec in H1 as [He1 Hm1]; [|done].
  pose proof (round_nearest_even_bounds (shr_m mrs1) (loc_of_shr_record mrs1)) as Hr.
  have Hm1' : 0 ≤ shr_m mrs1.
  { rewrite Hm1. apply Z.div_pos; [done|]. apply Z.pow_pos_nonneg; lia. }
  destruct (shr_fexp prec emax _ e1 loc_Exact) as [mrs2 e2] eqn:H2.
  apply shr_fexp_spec in H2 as [He2 Hm2]; [|lia].
  move: Hr He2 Hm2.
  generalize (round_nearest_even (shr_m mrs1) (loc_of_shr_record mrs1)).
  intros mr Hr He2 Hm2.
  have Hm2' : 0 ≤ shr_m mrs2.
  { rewrite Hm2. apply Z.div_pos; [lia|]. apply Z.pow_pos_nonneg; lia. }
  pose proof (Zdigits2_div_pow mr (e2 - e1) ltac:(lia) ltac:(lia)) as Hd.
  rewrite -Hm2 in Hd.
  destruct (shr_m mrs2) as [|p|p] eqn:Hp; [done| |lia].
  destruct (Z.leb_spec e2 (emax - prec)) as [Hle|Hgt]; [|done].
  split; [done|]. cbn [Zdigits2] in Hd. pose proof (Zdigits2_nonneg mr).
  move: He2 Hle. rewrite /fexp /emin /emax /prec. lia.
Qed.

(** Rounding a quantity below [2^1000] does not overflow. *)
Lemma binary_round_aux_finite s m e l :
  0 ≤ m → Zdigits2 m + e ≤ 1000 → e ≤ 900 →
  is_finite (binary_round_aux prec emax s m e l) = true.
Proof.
  intros Hm Hmag He. unfold binary_round_aux.
  destruct (shr_fexp prec emax m e l) as [mrs1 e1] eqn:H1.
  apply shr_fexp_spec in H1 as [He1 Hm1]; [|done].
  pose proof (round_nearest_even_bounds (shr_m mrs1) (loc_of_shr_record mrs1)) as Hr.
  have Hm1' : 0 ≤ shr_m mrs1.
  { rewrite Hm1. apply Z.div_pos; [done|]. apply Z.pow_pos_nonneg; lia. }
  pose proof (Zdigits2_div_pow m (e1 - e) ltac:(lia) ltac:(lia)) as Hd1.
  rewrite -Hm1 in Hd1.
  pose proof (Zdigits2_succ _ _ Hm1' Hr) as Hdr.
  destruct (shr_fexp prec emax _ e1 loc_Exact) as [mrs2 e2] eqn:H2.
  apply shr_fexp_spec in H2 as [He2 Hm2]; [|lia].
  move: Hr Hdr He2 Hm2.
  generalize (round_nearest_even (shr_m mrs1) (loc_of_shr_record mrs1)).
  intros mr Hr Hdr He2 Hm2.
  have Hm2' : 0 ≤ shr_m mrs2.
  { rewrite Hm2. apply Z.div_pos; [lia|]. apply Z.pow_pos_nonneg; lia. }
  destruct (shr_m mrs2) as [|p|p] eqn:Hp; [done| |lia].
  destruct (Z.leb_spec e2 (emax - prec)) as [Hle|Hgt]; [done|].
  exfalso. pose proof (Zdigits2_nonneg m).
  move: He1 He2 Hgt. rewrite /fexp /emin /emax /prec. lia.
Qed.

Lemma sqrt_lt_pow q n k :
  0 ≤ q → 0 ≤ k → q * q ≤ n → n < 2 ^ (2 * k) → q < 2 ^ k.
Proof.
  intros Hq Hk Hqn Hn. destruct (Z.lt_ge_cases q (2 ^ k)) as [|Hge]; [done|].
  exfalso. replace (2 * k) with (k + k) in Hn by lia.
  rewrite Z.pow_add_r // in Hn.
  have Hpow : 0 < 2 ^ k by apply Z.pow_pos_nonneg; lia.
  nia.
Qed.

Lemma SFsqrt_core_binary_bounds m e :
  Z.pos (digits2_pos m) ≤ 53 → e ≤ 971 →
  let '(q, e', _) := SFsqrt_core_binary prec emax (Z.pos m) e in
  0 ≤ q ∧ Zdigits2 q + e' ≤ 1000 ∧ e' ≤ 900.
Proof.
  intros Hd He. unfold SFsqrt_core_binary. cbn [Zdigits2].
  pose proof (digits2_pos_bounds m) as [_ Hdlt].
  have Hd0 : 0 < Z.pos (digits2_pos m) by done.
  move: Hd Hdlt Hd0. generalize (Z.pos (digits2_pos m)). intros d Hd Hdlt Hd0.
  set (e' := Z.min _ _).
  have He' : 2 * e' ≤ e ∧ e' ≤ 485.
  { subst e'. rewrite (Z.div2_div e).
    pose proof (Z.min_spec (fexp prec emax (Z.div2 (d + e + 1))) (e / 2)).
    Z.to_euclidean_division_equations. lia. }
  set (s := e - 2 * e').
  have Hs : 0 ≤ s by lia.
  set (m' := match s with Z0 => Z.pos m | Z.pos _ => Z.shiftl (Z.pos m) s | Z.neg _ => 0 end).
  have Hm' : m' = Z.pos m * 2 ^ s.
  { subst m'. destruct s as [|p|p] eqn:Hp; [lia| |lia].
    by rewrite Z.shiftl_mul_pow2. }
  have Hpow : 0 < 2 ^ s by apply Z.pow_pos_nonneg.
  pose proof (Z.sqrtrem_spec m' ltac:(nia)) as Hspec.
  destruct (Z.sqrtrem m') as [q r]. destruct Hspec as [Hqr Hr].
  have Hq : 0 ≤ q by lia.
  split; [done|]. split; [|lia].
  set (k := (d + s + 1) / 2).
  have Hk : 0 ≤ k ∧ d + s ≤ 2 * k ∧ 2 * k ≤ d + s + 1.
  { subst k. Z.to_euclidean_division_equations. lia. }
  have Hlt : q < 2 ^ k.
  { apply (sqrt_lt_pow q m'); [lia..|nia|].
    apply Z.lt_le_trans with (2 ^ (d + s)).
    - rewrite Hm' Z.pow_add_r; [lia..|].
      nia.
    - apply Z.pow_le_mono_r; lia. }
  pose proof (Zdigits2_le q k ltac:(lia) Hlt Hq). lia.
Qed.

(** [math.sqrt] returns on every binary64 number that is not below zero. *)
Lemma sqrt_bounded_Ok m e :
  Z.pos (digits2_pos m) ≤ 53 → e ≤ 971 →
  math.sqrt (S754_finite false m e) = Ok (SFsqrt prec emax (S754_finite false m e)).
Proof.
  intros Hd He. unfold math.sqrt, math.math_1. cbn [SFsqrt is_nan is_finite negb].
  pose proof (SFsqrt_core_binary_bounds m e Hd He) as Hb.
  destruct (SFsqrt_core_binary prec emax (Z.pos m) e) as [[q e'] l].
  destruct Hb as (Hq & Hmag & He').
  pose proof (binary_round_aux_finite false q e' l Hq Hmag He') as Hfin.
  by destruct (binary_round_aux prec emax false q e' l).
Qed.

Lemma bounded_bounds m e :
  bounded prec emax m e = true → Z.pos (digits2_pos m) ≤ 53 ∧ e ≤ 971.
Proof.
  rewrite /bounded /canonical_mantissa /fexp /emin /emax /prec.
  intros [?%Z.eqb_eq ?%Z.leb_le]%andb_prop. lia.
Qed.

Lemma pos_iter_xO m d : Z.pos (Pos.iter xO m d) = Z.pos m * 2 ^ Z.pos d.
Proof.
  induction d as [|d IH] using Pos.peano_ind; [cbn; lia|].
  rewrite Pos.iter_succ Pos2Z.inj_succ Z.pow_succ_r //.
  replace (Z.pos (Pos.iter xO m d)~0) with (2 * Z.pos (Pos.iter xO m d)) by lia.
  rewrite IH. lia.
Qed.

Lemma shl_align_fst mx ex ex' :
  ex' ≤ ex → Z.pos (fst (shl_align mx ex ex')) = Z.pos mx * 2 ^ (ex - ex').
Proof.
  intros Hle. unfold shl_align. destruct (ex' - ex) as [|d|d] eqn:Hd; [|lia|].
  - replace (ex - ex') with 0 by lia. cbn [fst]. lia.
  - replace (ex - ex') with (Z.pos d) by lia. cbn [fst]. apply pos_iter_xO.
Qed.

Lemma binary_round_cases s m e :
  match binary_round prec emax s m e with
  | S754_nan => False
  | S754_finite s' m' e' => s' = s ∧ Z.pos (digits2_pos m') ≤ 53 ∧ e' ≤ 971
  | S754_zero s' | S754_infinity s' => s' = s
  end.
Proof.
  unfold binary_round. destruct (shl_align _ _ _) as [mz ez].
  by apply binary_round_aux_cases.
Qed.

Lemma SFleb_finite m e m' e' :
  SFleb (S754_finite false m e) (S754_finite false m' e') = true →
  e < e' ∨ e = e' ∧ Z.pos m ≤ Z.pos m'.
Proof.
  rewrite /SFleb /SFcompare.
  destruct (Z.compare_spec e e') as [Heq|?|?]; [|lia|done].
  fold (Pos.compare m m').
  destruct (Pos.compare_spec m m') as [Hm|Hm|Hm]; [lia|lia|done].
Qed.

(** [1 - a] for a binary64 number [a] between 0 and 1: not below zero, and
    again a binary64 number. *)
Lemma one_sub_cases a :
  is_binary64 a = true → in_unit_interval a = true →
  match one -. a with
  | S754_nan => False
  | S754_finite s m e => s = false ∧ Z.pos (digits2_pos m) ≤ 53 ∧ e ≤ 971
  | S754_zero _ => True
  | S754_infinity s => s = false
  end.
Proof.
  unfold is_binary64, in_unit_interval.
  destruct a as [s|s| |s m e]; cbn [valid_binary]; intros Hv Hu.
  - by destruct s; vm_compute.
  - by destruct s.
  - done.
  - destruct s; [done|]. apply bounded_bounds in Hv as [Hd He].
    apply andb_prop in Hu as [_ Hle].
    change one with (S754_finite false 4503599627370496 (-52)) in Hle.
    change one with (S754_finite false 4503599627370496 (-52)).
    apply SFleb_finite in Hle as Hme.
    unfold Float.sub, SFsub, cond_Zopp.
    replace (Z.min (-52) e) with e by lia.
    rewrite (shl_align_fst 4503599627370496 (-52) e); [lia|].
    rewrite (shl_align_fst m e e); [lia|]. rewrite Z.sub_diag Z.mul_1_r.
    pose proof (digits2_pos_bounds m) as [_ Hlt].
    have Hpow : Z.pos m ≤ 4503599627370496 * 2 ^ (-52 - e).
    { destruct Hme as [Hlt52|[-> Hm]]; [|cbn; lia].
      have H53 : 2 ^ Z.pos (digits2_pos m) ≤ 2 ^ 53 by apply Z.pow_le_mono_r; lia.
      have H1 : 2 ^ 1 ≤ 2 ^ (-52 - e) by apply Z.pow_le_mono_r; lia.
      change (2 ^ 53) with 9007199254740992 in H53.
      change (2 ^ 1) with 2 in H1. lia. }
    destruct (_ - Z.pos m) as [|p|p] eqn:Hp; [done| |lia].
    cbn [binary_normalize]. pose proof (binary_round_cases false p e) as Hb.
    by destruct (binary_round prec emax false p e).
Qed.

Lemma sqrt_in_unit_interval a :
  is_binary64 a = true → in_unit_interval a = true →
  math.sqrt a = Ok (SFsqrt prec emax a) ∧
  math.sqrt (one -. a) = Ok (SFsqrt prec emax (one -. a)).
Proof.
  intros Hv Hu. split.
  - move: Hv Hu. unfold is_binary64, in_unit_interval.
    destruct a as [s|s| |s m e]; cbn [valid_binary]; intros Hv Hu;
      [done|by destruct s|done|].
    destruct s; [done|]. apply bounded_bounds in Hv as [Hd He].
    by apply sqrt_bounded_Ok.
  - pose proof (one_sub_cases a Hv Hu) as Hb.
    destruct (one -. a) as [s|s| |s m e]; [done|by subst s|done|].
    destruct Hb as (-> & Hd & He). by apply sqrt_bounded_Ok.
Qed.

(** C3 (as the code has it). The distance function takes the square roots
    of [a] and of [1 - a] as they were computed, without clamping.  When
    the computed [a] is a binary64 number between 0 and 1, both square
    roots return, and the function returns
    [R * (2 * atan2(sqrt a, sqrt (1 - a)))] as soon as the C library's
    [atan2] has a finite value there; when [1 - a] (or [a]) is below zero,
    the square root raises a domain error and so does the function; when
    the function returns, neither was below zero and the result is that
    same expression. *)
Theorem haversine_km_no_clamp M lat1 lon1 lat2 lon2 a :
  haversine_a M lat1 lon1 lat2 lon2 = Ok a →
  (is_binary64 a = true → in_unit_interval a = true →
     math.sqrt a = Ok (SFsqrt prec emax a) ∧
     math.sqrt (one -. a) = Ok (SFsqrt prec emax (one -. a)) ∧
     (is_finite (c_atan2 M (SFsqrt prec emax a) (SFsqrt prec emax (one -. a)))
        = true →
      haversine_km M lat1 lon1 lat2 lon2 =
        Ok (make 6371 0 *.
              (two *. c_atan2 M (SFsqrt prec emax a)
                                (SFsqrt prec emax (one -. a)))))) ∧
  ((one -. a) <. zero = true →
     haversine_km M lat1 lon1 lat2 lon2 = Raise ValueError) ∧
  (a <. zero = true →
     haversine_km M lat1 lon1 lat2 lon2 = Raise ValueError) ∧
  (∀ d, haversine_km M lat1 lon1 lat2 lon2 = Ok d →
     a <. zero = false ∧ (one -. a) <. zero = false ∧
     d = make 6371 0 *.
           (two *. c_atan2 M (SFsqrt prec emax a) (SFsqrt prec emax (one -. a)))).
Proof.
  intros Ha. rewrite (haversine_km_unfold _ _ _ _ _ a) //. split_and!.
  - intros Hv Hu. destruct (sqrt_in_unit_interval a Hv Hu) as [Hsa Hsb].
    split_and!; [done..|]. intros Hfin. rewrite Hsa Hsb.
    cbn [mbind result_bind]. unfold math.atan2, math.math_2.
    by destruct (c_atan2 M _ _).
  - intros Hneg. rewrite (sqrt_negative (one -. a)) //.
    destruct (math.sqrt a) as [sa|e] eqn:Hsa; [done|].
    by rewrite (math_1_raises _ _ e Hsa).
  - intros Hneg. by rewrite (sqrt_negative a).
  - intros d (sa & [-> Hsa]%sqrt_Ok & (sb & [-> Hsb]%sqrt_Ok &
                (t & ->%math_2_Ok & [= <-])%bind_Ok)%bind_Ok)%bind_Ok.
    done.
Qed.

(** ** Python sequences *)

Lemma pop_Ok {A} (l : list A) i x l' :
  pylist.pop l i = Ok (x, l') ↔ l !! i = Some x ∧ l' = delete i l.
Proof.
  unfold pylist.pop. destruct (l !! i); naive_solver.
Qed.

Lemma pop_lt {A} (l : list A) i :
  (i < length l)%nat → ∃ x, pylist.pop l i = Ok (x, delete i l).
Proof.
  intros [x Hx]%lookup_lt_is_Some_2. exists x. by apply pop_Ok.
Qed.

Lemma last_Ok {A} (l : list A) x : pylist.last l = Ok x ↔ last l = Some x.
Proof. unfold pylist.last. destruct (last l); naive_solver. Qed.

Lemma last_nonempty {A} (l : list A) : l ≠ [] → ∃ x, pylist.last l = Ok x.
Proof.
  intros Hl. destruct (last l) as [x|] eqn:Hx.
  - exists x. by apply last_Ok.
  - by apply last_None in Hx.
Qed.

(** ** The ordering *)

Section OrderingFacts.

Variable M : libm.

Lemma distances_defined_lookup ps p q :
  distances_defined M ps → p ∈ ps → q ∈ ps →
  ∃ d, dist_to M (latitude p) (longitude p) q = Ok d.
Proof.
  intros Hd Hp Hq.
  rewrite /distances_defined Forall_forall in Hd.
  specialize (Hd p Hp). rewrite Forall_forall in Hd. specialize (Hd q Hq).
  destruct (dist_to _ _ _ _) as [d|]; [by exists d|done].
Qed.

Lemma distances_defined_subseteq ps qs :
  qs ⊆ ps → distances_defined M ps → distances_defined M qs.
Proof.
  intros Hsub Hd. apply Forall_forall. intros p Hp. apply Forall_forall. intros q Hq.
  destruct (distances_defined_lookup ps p q) as [d Hpq]; auto.
  by rewrite Hpq.
Qed.

Lemma scan_cons lat lon p ps i idx best :
  scan M lat lon (p :: ps) i idx best =
    (dist ← dist_to M lat lon p ;
     if (match best with
         | None => true
         | Some b => dist <. b
         end)
     then scan M lat lon ps (S i) i (Some dist)
     else scan M lat lon ps (S i) idx best).
Proof. done. Qed.

Lemma scan_raises lat lon ps i idx best :
  raises_only math_error (scan M lat lon ps i idx best).
Proof.
  revert i idx best. induction ps as [|p ps IH]; intros i idx best; simpl.
  - apply raises_only_Ok.
  - apply raises_only_bind; [apply haversine_km_raises|].
    intros d _. case_match; apply IH.
Qed.

(** The index the scan ends on is the one it started with or the position
    of a scanned element. *)
Lemma scan_idx lat lon ps i idx best idx' best' :
  scan M lat lon ps i idx best = Ok (idx', best') →
  idx' = idx ∨ (i ≤ idx' < i + length ps)%nat.
Proof.
  revert i idx best. induction ps as [|p ps IH]; intros i idx best; simpl.
  - intros [= <- <-]. by left.
  - intros (d & Hd & Hscan)%bind_Ok. case_match.
    + apply IH in Hscan as [->|?]; right; lia.
    + apply IH in Hscan as [->|?]; [by left|right; lia].
Qed.

Lemma scan_defined lat lon ps i idx best :
  Forall (λ q, is_ok (dist_to M lat lon q) = true) ps →
  ∃ r, scan M lat lon ps i idx best = Ok r.
Proof.
  intros Hps. revert i idx best.
  induction Hps as [|p ps Hp _ IH]; intros i idx best; simpl.
  - eauto.
  - destruct (dist_to M lat lon p) as [d|]; [|done]. simpl.
    case_match; apply IH.
Qed.

#[local] Arguments scan : simpl never.

Lemma while_remaining_app fuel remaining ordered out :
  while_remaining M fuel remaining ordered = Ok out →
  ∃ route, out = ordered ++ route ∧ route ≡ₚ remaining.
Proof.
  revert remaining ordered.
  induction fuel as [|fuel IH]; intros [|r remaining] ordered; simpl.
  1,3: intros [= <-]; exists []; by rewrite app_nil_r.
  - done.
  - intros (l & _ & ([idx best] & _ & ([p rem'] & Hpop & Hloop)%bind_Ok)%bind_Ok)%bind_Ok.
    apply pop_Ok in Hpop as [Hp ->].
    apply IH in Hloop as (route & -> & Hroute).
    exists (p :: route). split; [by rewrite -assoc|].
    rewrite Hroute. symmetry. by apply delete_Permutation.
Qed.

Lemma while_remaining_raises fuel remaining ordered :
  ordered ≠ [] → (length remaining ≤ fuel)%nat →
  raises_only math_error (while_remaining M fuel remaining ordered).
Proof.
  revert remaining ordered.
  induction fuel as [|fuel IH]; intros [|r remaining] ordered Hne Hlen; simpl in *;
    try apply raises_only_Ok; try lia.
  destruct (last_nonempty ordered Hne) as [l ->]. simpl.
  apply raises_only_bind; [apply scan_raises|]. intros [idx best] Hscan.
  apply scan_idx in Hscan as Hidx.
  destruct (pop_lt (r :: remaining) idx) as [p ->]; [simpl in *; lia|]. simpl.
  apply IH; [by destruct ordered|].
  rewrite length_delete; [apply lookup_lt_is_Some_2; simpl in *; lia|simpl; lia].
Qed.

Lemma while_remaining_defined fuel remaining ordered :
  ordered ≠ [] → (length remaining ≤ fuel)%nat →
  distances_defined M (ordered ++ remaining) →
  ∃ out, while_remaining M fuel remaining ordered = Ok out.
Proof.
  revert remaining ordered.
  induction fuel as [|fuel IH]; intros [|r remaining] ordered Hne Hlen Hd; simpl in *;
    eauto; try lia.
  destruct (last_nonempty ordered Hne) as [l Hl]. rewrite Hl. simpl.
  apply last_Ok, last_Some_elem_of in Hl.
  destruct (scan_defined (latitude l) (longitude l) (r :: remaining) 0 0 None)
    as [[idx best] Hscan].
  { apply Forall_forall. intros q Hq.
    destruct (distances_defined_lookup _ l q Hd) as [d Hlq]; [set_solver..|].
    by rewrite Hlq. }
  rewrite Hscan. simpl.
  apply scan_idx in Hscan as Hidx.
  destruct (pop_lt (r :: remaining) idx) as [p Hpop]; [simpl in *; lia|].
  rewrite Hpop. simpl.
  apply pop_Ok in Hpop as [Hp _].
  apply IH; [by destruct ordered| |].
  - rewrite length_delete; [by eexists|simpl; lia].
  - eapply distances_defined_subseteq; [|exact Hd].
    intros q [[Hq| ->%list_elem_of_singleton]%elem_of_app|Hq]%elem_of_app.
    + set_solver.
    + apply elem_of_app; right. by eapply list_elem_of_lookup_2.
    + apply elem_of_app; right.
      eapply elem_of_submseteq; [exact Hq|apply submseteq_delete].
Qed.

Lemma order_by_proximity_cons p ps :
  order_by_proximity M (p :: ps) = while_remaining M (length ps) ps [p].
Proof. done. Qed.

(** The ordering raises nothing but what the distance function raises: the
    loop bound is never reached, no index is out of range. *)
Lemma order_by_proximity_raises points :
  raises_only math_error (order_by_proximity M points).
Proof.
  destruct points as [|p ps]; [apply raises_only_Ok|].
  rewrite order_by_proximity_cons. by apply while_remaining_raises.
Qed.

Lemma order_by_proximity_defined points :
  distances_defined M points → ∃ out, order_by_proximity M points = Ok out.
Proof.
  destruct points as [|p ps]; [by exists []|]. intros Hd.
  rewrite order_by_proximity_cons. by apply while_remaining_defined.
Qed.

Lemma order_by_proximity_Permutation points out :
  order_by_proximity M points = Ok out → out ≡ₚ points.
Proof.
  destruct points as [|p ps]; [by intros [= <-]|].
  rewrite order_by_proximity_cons.
  intros (route & -> & Hroute)%while_remaining_app. simpl. by rewrite Hroute.
Qed.

(** C9. Given an empty collection, [order_by_proximity] returns an empty
    list and raises nothing; given a single point, it returns the list of
    that one point. *)
Theorem order_by_proximity_empty_single :
  order_by_proximity M [] = Ok [] ∧ ∀ p, order_by_proximity M [p] = Ok [p].
Proof. split; [done|intros p; done]. Qed.

(** C2. For a non-empty collection of points, the output of
    [order_by_proximity] is a permutation of the input: same length, same
    multiset of points and of ids.  The function returns whenever the
    distances between the points are defined, and otherwise raises what the
    distance function raised. *)
Theorem order_by_proximity_permutation points :
  points ≠ [] →
  (∀ out, order_by_proximity M points = Ok out →
     out ≡ₚ points ∧ length out = length points ∧
     _id <$> out ≡ₚ _id <$> points) ∧
  (distances_defined M points → ∃ out, order_by_proximity M points = Ok out) ∧
  raises_only math_error (order_by_proximity M points).
Proof.
  intros _. split_and!.
  - intros out Hout%order_by_proximity_Permutation.
    split_and!; by rewrite Hout.
  - apply order_by_proximity_defined.
  - apply order_by_proximity_raises.
Qed.

End OrderingFacts.

(** ** The order on floats

    [<] on floats is a strict order, and a total one away from NaN. *)

Lemma ltb_irrefl x : x <. x = false.
Proof.
  rewrite /Float.ltb /SFltb /SFcompare.
  destruct x as [[]|[]| |[] m e]; simpl; cmp_cases.
Qed.

Lemma ltb_trans x y z : x <. y = true → y <. z = true → x <. z = true.
Proof.
  rewrite /Float.ltb /SFltb /SFcompare.
  destruct x as [[]|[]| |[] m1 e1], y as [[]|[]| |[] m2 e2],
    z as [[]|[]| |[] m3 e3]; simpl; try done;
    intros H1 H2; cmp_cases.
Qed.

Lemma ltb_nle_trans x y z :
  x <. y = true → z <. y = false → is_nan z = false → x <. z = true.
Proof.
  rewrite /Float.ltb /SFltb /SFcompare.
  destruct x as [[]|[]| |[] m1 e1], y as [[]|[]| |[] m2 e2],
    z as [[]|[]| |[] m3 e3]; simpl; try done;
    intros H1 H2 _; cmp_cases.
Qed.

(** ** The greedy choice *)

Section Greedy.

Variable M : libm.

Lemma distances_numbers_lookup ps p q :
  distances_numbers M ps → p ∈ ps → q ∈ ps →
  ∃ d, dist_to M (latitude p) (longitude p) q = Ok d ∧ is_nan d = false.
Proof.
  intros Hd Hp Hq.
  rewrite /distances_numbers Forall_forall in Hd.
  specialize (Hd p Hp). rewrite Forall_forall in Hd. specialize (Hd q Hq).
  destruct (dist_to _ _ _ _) as [d|]; [|done].
  exists d. split; [done|]. by apply negb_true_iff.
Qed.

Lemma distances_numbers_defined ps :
  distances_numbers M ps → distances_defined M ps.
Proof.
  intros Hd. apply Forall_forall. intros p Hp. apply Forall_forall. intros q Hq.
  destruct (distances_numbers_lookup ps p q) as (d & -> & _); auto.
Qed.

Lemma distances_numbers_subseteq ps qs :
  qs ⊆ ps → distances_numbers M ps → distances_numbers M qs.
Proof.
  intros Hsub Hd. apply Forall_forall. intros p Hp. apply Forall_forall. intros q Hq.
  destruct (distances_numbers_lookup ps p q) as (d & -> & Hnan); auto.
  simpl. by rewrite Hnan.
Qed.

Lemma scan_inv_first lat lon q d :
  dist_to M lat lon q = Ok d → scan_inv M lat lon [q] 0 (Some d).
Proof.
  intros Hd. split; [|by exists q].
  exists q, d. split_and!; [done..| |intros; lia].
  intros [|j] q' dq [=] Hdq; subst.
  assert (dq = d) as -> by congruence. apply ltb_irrefl.
Qed.

Lemma scan_inv_better lat lon pre idx b q d :
  Forall (λ q, is_number (dist_to M lat lon q) = true) pre →
  scan_inv M lat lon pre idx (Some b) →
  dist_to M lat lon q = Ok d → d <. b = true →
  scan_inv M lat lon (pre ++ [q]) (length pre) (Some d).
Proof.
  intros Hpre [(p & b' & Hp & Hb & Hmin & Hearly) (p' & Hp' & Hb')] Hd Hlt.
  assert (p' = p) as -> by congruence. assert (b' = b) as -> by congruence.
  rewrite Forall_forall in Hpre.
  assert ((pre ++ [q]) !! length pre = Some q) as Hq
    by by rewrite lookup_app_r // Nat.sub_diag.
  split; [|by exists q].
  exists q, d. split_and!; [done..| |].
  - intros j q' dq Hj Hdq.
    destruct (decide (j < length pre)%nat) as [Hlt'|Hge].
    + rewrite lookup_app_l // in Hj.
      destruct (dq <. d) eqn:Hcmp; [|done].
      assert (dq <. b = true) as Hcontra by by eapply ltb_trans.
      by rewrite (Hmin j q' dq) in Hcontra.
    + apply lookup_lt_Some in Hj as Hlen. rewrite length_app /= in Hlen.
      assert (j = length pre) as -> by lia.
      assert (dq = d) as -> by congruence. apply ltb_irrefl.
  - intros j q' dq Hlt' Hj Hdq. rewrite lookup_app_l // in Hj.
    eapply ltb_nle_trans; [done|by eapply Hmin|].
    assert (is_number (dist_to M lat lon q') = true) as Hnum
      by by eapply Hpre, list_elem_of_lookup_2.
    rewrite Hdq /= in Hnum. by apply negb_true_iff.
Qed.

Lemma scan_inv_worse lat lon pre idx b q d :
  scan_inv M lat lon pre idx (Some b) →
  dist_to M lat lon q = Ok d → d <. b = false →
  scan_inv M lat lon (pre ++ [q]) idx (Some b).
Proof.
  intros [(p & b' & Hp & Hb & Hmin & Hearly) (p' & Hp' & Hb')] Hd Hlt.
  assert (p' = p) as -> by congruence. assert (b' = b) as -> by congruence.
  apply lookup_lt_Some in Hp as Hidx.
  split; [|exists p; by rewrite lookup_app_l].
  exists p, b. split_and!; [by rewrite lookup_app_l|done| |].
  - intros j q' dq Hj Hdq.
    destruct (decide (j < length pre)%nat) as [Hlt'|Hge].
    + rewrite lookup_app_l // in Hj. by eapply Hmin.
    + apply lookup_lt_Some in Hj as Hlen. rewrite length_app /= in Hlen.
      assert (j = length pre) as -> by lia.
      rewrite lookup_app_r // Nat.sub_diag /= in Hj. congruence.
  - intros j q' dq Hlt' Hj Hdq. rewrite lookup_app_l in Hj; [lia|].
    by eapply Hearly.
Qed.

Lemma scan_keeps_inv lat lon ps pre idx best idx' best' :
  Forall (λ q, is_number (dist_to M lat lon q) = true) (pre ++ ps) →
  scan_inv M lat lon pre idx best →
  scan M lat lon ps (length pre) idx best = Ok (idx', best') →
  scan_inv M lat lon (pre ++ ps) idx' best'.
Proof.
  revert pre idx best. induction ps as [|q ps IH]; intros pre idx best Hnum Hinv.
  - intros [= <- <-]. by rewrite app_nil_r.
  - rewrite scan_cons. intros (d & Hd & Hscan)%bind_Ok.
    replace (pre ++ q :: ps) with ((pre ++ [q]) ++ ps) in Hnum |- *
      by by rewrite -assoc_L.
    replace (S (length pre)) with (length (pre ++ [q])) in Hscan
      by (rewrite length_app /=; lia).
    apply Forall_app in Hnum as Hnum'. destruct Hnum' as [[Hpre _]%Forall_app _].
    destruct best as [b|].
    + destruct (d <. b) eqn:Hlt.
      * eapply IH; [done| |done]. by eapply scan_inv_better.
      * eapply IH; [done| |done]. by eapply scan_inv_worse.
    + simpl in Hinv. subst pre. eapply IH; [done| |done].
      by apply scan_inv_first.
Qed.

Lemma scan_nearest_first lat lon remaining idx best :
  remaining ≠ [] →
  Forall (λ q, is_number (dist_to M lat lon q) = true) remaining →
  scan M lat lon remaining 0 0 None = Ok (idx, best) →
  nearest_first M lat lon remaining idx.
Proof.
  intros Hne Hnum Hscan.
  apply (scan_keeps_inv lat lon remaining [] 0 None) in Hscan; [|done..].
  destruct best as [b|]; [by destruct Hscan|done].
Qed.

#[local] Arguments scan : simpl never.

Lemma while_remaining_greedy fuel remaining ordered l :
  last ordered = Some l → (length remaining ≤ fuel)%nat →
  distances_numbers M (ordered ++ remaining) →
  ∃ route, while_remaining M fuel remaining ordered = Ok (ordered ++ route) ∧
           greedy_from M remaining l route.
Proof.
  revert remaining ordered l.
  induction fuel as [|fuel IH]; intros [|r remaining] ordered l Hl Hlen Hd;
    simpl in *; try lia.
  1,2: exists []; rewrite app_nil_r; split; [done|constructor].
  rewrite (proj2 (last_Ok ordered l) Hl) /=.
  apply last_Some_elem_of in Hl as Hl'.
  assert (Forall (λ q, is_number (dist_to M (latitude l) (longitude l) q) = true)
            (r :: remaining)) as Hnum.
  { apply Forall_forall. intros q Hq.
    destruct (distances_numbers_lookup _ l q Hd) as (d & -> & Hnan);
      [set_solver..|].
    simpl. by rewrite Hnan. }
  destruct (scan_defined M (latitude l) (longitude l) (r :: remaining) 0 0 None)
    as [[idx best] Hscan].
  { eapply Forall_impl; [exact Hnum|]. intros q. simpl. by destruct (dist_to _ _ _ _). }
  rewrite Hscan /=.
  apply scan_nearest_first in Hscan as Hnear; [|done..].
  destruct Hnear as (p & d & Hp & Hrest).
  rewrite (proj2 (pop_Ok (r :: remaining) idx p _) (conj Hp eq_refl)) /=.
  destruct (IH (delete idx (r :: remaining)) (ordered ++ [p]) p) as (route & -> & Hroute).
  - by rewrite last_snoc.
  - rewrite length_delete; [by eexists|simpl; lia].
  - eapply distances_numbers_subseteq; [|exact Hd].
    intros q [[Hq| ->%list_elem_of_singleton]%elem_of_app|Hq]%elem_of_app.
    + set_solver.
    + apply elem_of_app; right. by eapply list_elem_of_lookup_2.
    + apply elem_of_app; right.
      eapply elem_of_submseteq; [exact Hq|apply submseteq_delete].
  - exists (p :: route). split; [by rewrite -assoc_L|].
    econstructor; [|done..]. by exists p, d.
Qed.

(** With every point at the same distance, the scan stays on the first. *)
Lemma scan_ties lat lon ps i idx d :
  Forall (λ q, dist_to M lat lon q = Ok d) ps →
  scan M lat lon ps i idx (Some d) = Ok (idx, Some d).
Proof.
  intros Hps. revert i. induction Hps as [|q ps Hq _ IH]; intros i; [done|].
  rewrite scan_cons Hq /= ltb_irrefl. apply IH.
Qed.

Lemma while_remaining_identical fuel remaining ordered l d :
  last ordered = Some l → (length remaining ≤ fuel)%nat →
  dist_to M (latitude l) (longitude l) l = Ok d →
  Forall (λ q, latitude q = latitude l ∧ longitude q = longitude l) remaining →
  while_remaining M fuel remaining ordered = Ok (ordered ++ remaining).
Proof.
  revert remaining ordered l.
  induction fuel as [|fuel IH]; intros [|r remaining] ordered l Hl Hlen Hd Hsame;
    simpl in *; try lia.
  1,2: by rewrite app_nil_r.
  rewrite (proj2 (last_Ok ordered l) Hl) /=.
  assert (Forall (λ q, dist_to M (latitude l) (longitude l) q = Ok d) (r :: remaining))
    as Hall.
  { eapply Forall_impl; [exact Hsame|]. intros q [Hlat Hlon].
    by rewrite /dist_to Hlat Hlon. }
  apply Forall_cons in Hall as [Hr Hall]. apply Forall_cons in Hsame as [[Hlat Hlon] Hsame].
  rewrite scan_cons Hr /= (scan_ties _ _ _ _ _ d) //=.
  rewrite (IH remaining (ordered ++ [r]) r).
  - by rewrite last_snoc.
  - lia.
  - by rewrite /dist_to Hlat Hlon.
  - eapply Forall_impl; [exact Hsame|]. intros q [-> ->]. by rewrite Hlat Hlon.
  - by rewrite -assoc_L.
Qed.

(** C7. [order_by_proximity] seeds the route with the first point of the
    input, then repeatedly appends the remaining point at minimum distance
    from the point appended last, the earliest such point in the remaining
    order on ties; when all points lie at the same coordinates the input
    order is kept. *)
Theorem order_by_proximity_greedy p ps :
  (∀ out, order_by_proximity M (p :: ps) = Ok out → head out = Some p) ∧
  (distances_numbers M (p :: ps) →
     ∃ route, order_by_proximity M (p :: ps) = Ok (p :: route) ∧
              greedy_from M ps p route) ∧
  (∀ d, dist_to M (latitude p) (longitude p) p = Ok d →
     Forall (λ q, latitude q = latitude p ∧ longitude q = longitude p) ps →
     order_by_proximity M (p :: ps) = Ok (p :: ps)).
Proof.
  rewrite order_by_proximity_cons. split_and!.
  - by intros out (route & -> & _)%while_remaining_app.
  - intros Hd. by apply (while_remaining_greedy (length ps) ps [p] p).
  - intros d Hd Hsame. by apply (while_remaining_identical _ ps [p] p d).
Qed.

End Greedy.

(** ** Day partitioning *)

Section PartitionFacts.

Variable M : libm.

Lemma slice_nonneg {A} (l : list A) lo hi :
  0 ≤ lo ≤ hi →
  pylist.slice l lo hi = take (Z.to_nat (hi - lo)) (drop (Z.to_nat lo) l).
Proof.
  intros [Hlo Hhi]. rewrite /pylist.slice /pylist.clip /pylist.len.
  destruct (Z.ltb_spec lo 0), (Z.ltb_spec hi 0); try lia.
  destruct (decide (Z.of_nat (length l) ≤ lo)) as [Hge|Hlt].
  - rewrite (drop_ge l (Z.to_nat lo)); [lia|].
    rewrite drop_ge; [lia|]. by rewrite !take_nil.
  - replace (Z.to_nat (lo `min` Z.of_nat (length l))) with (Z.to_nat lo) by lia.
    destruct (decide (hi ≤ Z.of_nat (length l))) as [Hle|Hgt].
    + f_equal. lia.
    + rewrite !take_ge ?length_drop //; lia.
Qed.

Lemma getitem_lookup {A} (l : list A) k x :
  0 ≤ k → l !! Z.to_nat k = Some x → pylist.getitem l k = Ok x.
Proof.
  intros Hk Hx. assert ((k <? 0) = false) as Hf by lia.
  rewrite /pylist.getitem Hf. cbv beta iota zeta. by rewrite Hf Hx.
Qed.

Lemma per_day_of_pos n days pd :
  0 ≤ n → 0 < days → per_day_of n days = Ok pd →
  1 ≤ pd ∧ n ≤ pd * days ∧ (1 ≤ n → (pd - 1) * days < n).
Proof.
  intros Hn Hdays. rewrite /per_day_of.
  destruct (Z.eqb_spec days 0); [lia|]. intros [= <-].
  pose proof (Z.div_mod n days ltac:(lia)) as Hdm.
  pose proof (Z.mod_pos_bound n days Hdays) as Hmod.
  destruct (Z.eqb_spec (n `mod` days) 0); nia.
Qed.

Lemma add_distances_app pairs1 pairs2 total :
  add_distances M (pairs1 ++ pairs2) total =
    (total' ← add_distances M pairs1 total ; add_distances M pairs2 total').
Proof.
  revert total. induction pairs1 as [|ab pairs1 IH]; intros total; simpl; [done|].
  destruct (pair_dist M ab); simpl; [apply IH|done].
Qed.

Lemma add_distances_raises pairs total :
  raises_only math_error (add_distances M pairs total).
Proof.
  revert total. induction pairs as [|ab pairs IH]; intros total; simpl.
  - apply raises_only_Ok.
  - apply raises_only_bind; [apply haversine_km_raises|]. intros; apply IH.
Qed.

Lemma day_distance_cons day_places j js total :
  day_distance M day_places (j :: js) total =
    (a ← pylist.getitem day_places (j - 1) ;
     b ← pylist.getitem day_places j ;
     d ← pair_dist M (a, b) ;
     day_distance M day_places js (total +. d)).
Proof. done. Qed.

(** The loop over [j] adds the distances of the consecutive pairs of the
    day. *)
Lemma day_distance_suffix pre suf total :
  day_distance M (pre ++ suf) (seqZ (pylist.len pre + 1) (pylist.len suf - 1)) total =
    add_distances M (adjacent suf) total.
Proof.
  revert pre total. induction suf as [|a suf IH]; intros pre total.
  { by rewrite seqZ_nil. }
  destruct suf as [|b suf].
  { by rewrite seqZ_nil. }
  rewrite seqZ_cons; [rewrite /pylist.len /=; lia|].
  rewrite day_distance_cons.
  assert (pylist.getitem (pre ++ a :: b :: suf) (pylist.len pre + 1 - 1) = Ok a) as ->.
  { apply getitem_lookup; [rewrite /pylist.len; lia|].
    replace (Z.to_nat (pylist.len pre + 1 - 1)) with (length pre)
      by (rewrite /pylist.len; lia).
    by rewrite list_lookup_middle. }
  assert (pylist.getitem (pre ++ a :: b :: suf) (pylist.len pre + 1) = Ok b) as ->.
  { apply getitem_lookup; [rewrite /pylist.len; lia|].
    replace (Z.to_nat (pylist.len pre + 1)) with (length (pre ++ [a]))
      by (rewrite /pylist.len length_app /=; lia).
    replace (pre ++ a :: b :: suf) with ((pre ++ [a]) ++ b :: suf)
      by by rewrite -assoc_L.
    by rewrite list_lookup_middle. }
  cbn [mbind result_bind adjacent tail zip zip_with add_distances].
  destruct (pair_dist M (a, b)) as [d|]; [|done].
  cbn [mbind result_bind].
  specialize (IH (pre ++ [a]) (total +. d)).
  rewrite -assoc_L /= in IH. rewrite -IH. f_equal.
  rewrite /pylist.len length_app /=. f_equal; lia.
Qed.

Lemma day_distance_adjacent day_places total :
  day_distance M day_places (pylist.range 1 (pylist.len day_places)) total =
    add_distances M (adjacent day_places) total.
Proof. apply (day_distance_suffix [] day_places). Qed.

Lemma day_loop_cons ordered pd i ixs days total :
  day_loop M ordered pd (i :: ixs) days total =
    let day_places := pylist.slice ordered (i * pd) ((i + 1) * pd) in
    if bool_decide (day_places = []) && (1 <=? i) then Ok (days, total)
    else
      (total' ← day_distance M day_places (pylist.range 1 (pylist.len day_places)) total ;
       day_loop M ordered pd ixs
         (days ++ [mkDayPlan (i + 1) (_id <$> day_places)]) total').
Proof. done. Qed.

Lemma day_slices_cons ordered pd i ixs :
  day_slices ordered pd (i :: ixs) =
    let day_places := pylist.slice ordered (i * pd) ((i + 1) * pd) in
    if bool_decide (day_places = []) && (1 <=? i) then []
    else day_places :: day_slices ordered pd ixs.
Proof. done. Qed.

(** The day loop, as a computation on the slices it emits. *)
Lemma day_loop_slices ordered pd i k days total :
  day_loop M ordered pd (seqZ i k) days total =
    let slices := day_slices ordered pd (seqZ i k) in
    (total' ← add_distances M (mjoin (adjacent <$> slices)) total ;
     Ok (days ++ plans_from i slices, total')).
Proof.
  destruct (decide (k ≤ 0)) as [Hk|Hk].
  { rewrite seqZ_nil //=. by rewrite app_nil_r. }
  rewrite -(Z2Nat.id k); [lia|]. generalize (Z.to_nat k) as n. clear k Hk.
  intros n. revert i days total. induction n as [|n IH]; intros i days total.
  { simpl. by rewrite app_nil_r. }
  rewrite seqZ_cons; [lia|].
  replace (Z.pred (Z.of_nat (S n))) with (Z.of_nat n) by lia.
  rewrite day_loop_cons day_slices_cons. cbv zeta.
  case_match.
  { simpl. by rewrite app_nil_r. }
  rewrite day_distance_adjacent.
  cbn [fmap list_fmap mjoin list_join plans_from].
  rewrite add_distances_app.
  destruct (add_distances M (adjacent _) total) as [total'|e]; [|done].
  cbn [mbind result_bind]. rewrite IH. cbv zeta.
  destruct (add_distances M _ total') as [total''|e]; [|done].
  cbn [mbind result_bind]. by rewrite -assoc_L.
Qed.

Lemma split_days_slices ordered req_days pd :
  per_day_of (pylist.len ordered) req_days = Ok pd →
  split_days M ordered req_days =
    let slices := day_slices ordered pd (pylist.range 0 req_days) in
    (total ← add_distances M (mjoin (adjacent <$> slices)) zero ;
     Ok (plans_from 0 slices, total)).
Proof.
  intros Hpd. rewrite /split_days Hpd /= /pylist.range.
  by rewrite day_loop_slices.
Qed.

Lemma plans_from_place_ids i slices :
  mjoin (place_ids <$> plans_from i slices) = _id <$> mjoin slices.
Proof.
  revert i. induction slices as [|sl slices IH]; intros i; [done|].
  cbn [plans_from fmap list_fmap mjoin list_join place_ids].
  rewrite fmap_app. f_equal. apply IH.
Qed.

Lemma plans_from_length i slices : length (plans_from i slices) = length slices.
Proof. revert i. induction slices as [|sl slices IH]; intros i; simpl; auto. Qed.

Lemma plans_from_lookup i slices k sl :
  slices !! k = Some sl →
  plans_from i slices !! k = Some (mkDayPlan (i + Z.of_nat k + 1) (_id <$> sl)).
Proof.
  revert i k. induction slices as [|sl' slices IH]; intros i [|k] Hk; simplify_eq/=.
  - do 2 f_equal. lia.
  - rewrite (IH (i + 1) k) //. do 3 f_equal. lia.
Qed.

(** The slices of the days [i], ..., [i + k - 1] put end to end are the
    stretch of the route from [i * per_day] of length [k * per_day]. *)
Lemma day_slices_join ordered pd i k :
  1 ≤ pd → 0 ≤ i →
  mjoin (day_slices ordered pd (seqZ i (Z.of_nat k))) =
    take (k * Z.to_nat pd) (drop (Z.to_nat i * Z.to_nat pd) ordered).
Proof.
  intros Hpd. revert i. induction k as [|k IH]; intros i Hi; [done|].
  rewrite seqZ_cons; [lia|].
  replace (Z.pred (Z.of_nat (S k))) with (Z.of_nat k) by lia.
  rewrite day_slices_cons. cbv zeta.
  rewrite slice_nonneg; [nia|].
  replace (Z.to_nat ((i + 1) * pd - i * pd)) with (Z.to_nat pd) by lia.
  replace (Z.to_nat (i * pd)) with (Z.to_nat i * Z.to_nat pd)%nat by nia.
  destruct (bool_decide _ && _) eqn:Hbreak.
  - apply andb_true_iff in Hbreak as [Hnil%bool_decide_eq_true _].
    apply take_nil_inv in Hnil as [?| ->]; [lia|]. by rewrite take_nil.
  - cbn [mjoin list_join]. rewrite IH; [lia|].
    replace (Z.to_nat (Z.succ i) * Z.to_nat pd)%nat
      with (Z.to_nat i * Z.to_nat pd + Z.to_nat pd)%nat by lia.
    rewrite -drop_drop take_take_drop. f_equal; lia.
Qed.

Lemma day_slices_cover ordered days pd :
  0 < days → per_day_of (pylist.len ordered) days = Ok pd →
  mjoin (day_slices ordered pd (pylist.range 0 days)) = ordered.
Proof.
  intros Hdays Hpd.
  apply per_day_of_pos in Hpd as (Hpd1 & Hcover & _); [|rewrite /pylist.len; lia|done].
  rewrite /pylist.range -(Z2Nat.id (days - 0)); [lia|].
  rewrite day_slices_join; [done..|].
  rewrite /pylist.len in Hcover. rewrite take_ge; [|done].
  change (Z.to_nat 0) with 0%nat. rewrite length_drop. nia.
Qed.

Lemma add_distances_defined pairs total :
  Forall (λ ab, is_ok (pair_dist M ab) = true) pairs →
  ∃ total', add_distances M pairs total = Ok total'.
Proof.
  intros Hpairs. revert total.
  induction Hpairs as [|ab pairs Hab _ IH]; intros total; simpl; [eauto|].
  destruct (pair_dist M ab) as [d|]; [|done]. apply IH.
Qed.

Lemma adjacent_elem_of sl a b : (a, b) ∈ adjacent sl → a ∈ sl ∧ b ∈ sl.
Proof.
  rewrite /adjacent. intros Hab. split.
  - by eapply elem_of_zip_l.
  - apply elem_of_zip_r in Hab. destruct sl; [done|]. by right.
Qed.

Lemma intra_day_pairs_defined slices ordered :
  distances_defined M ordered → mjoin slices ⊆ ordered →
  Forall (λ ab, is_ok (pair_dist M ab) = true) (mjoin (adjacent <$> slices)).
Proof.
  intros Hd Hsub. apply Forall_forall. intros [a b] Hab.
  apply list_elem_of_join in Hab as (pairs & Hab & Hpairs).
  apply list_elem_of_fmap in Hpairs as (sl & -> & Hsl).
  apply adjacent_elem_of in Hab as [Ha Hb].
  destruct (distances_defined_lookup M ordered a b Hd) as [d Hdist].
  - apply Hsub, list_elem_of_join. eauto.
  - apply Hsub, list_elem_of_join. eauto.
  - by rewrite /pair_dist /= -/(dist_to M _ _ b) Hdist.
Qed.

Lemma per_day_of_defined n req_days :
  0 < req_days → ∃ pd, per_day_of n req_days = Ok pd.
Proof.
  intros Hdays. rewrite /per_day_of.
  destruct (Z.eqb_spec req_days 0); [lia|by eauto].
Qed.

Lemma split_days_place_ids ordered req_days ds total :
  0 < req_days → split_days M ordered req_days = Ok (ds, total) →
  mjoin (place_ids <$> ds) = _id <$> ordered.
Proof.
  intros Hdays.
  destruct (per_day_of_defined (pylist.len ordered) req_days Hdays) as [pd Hpd].
  rewrite (split_days_slices _ _ pd) //. cbv zeta.
  intros (total' & _ & [= <- <-])%bind_Ok.
  by rewrite plans_from_place_ids day_slices_cover.
Qed.

Lemma split_days_defined ordered req_days :
  0 < req_days → distances_defined M ordered →
  ∃ ds total, split_days M ordered req_days = Ok (ds, total).
Proof.
  intros Hdays Hd.
  destruct (per_day_of_defined (pylist.len ordered) req_days Hdays) as [pd Hpd].
  rewrite (split_days_slices _ _ pd) //. cbv zeta.
  destruct (add_distances_defined
              (mjoin (adjacent <$> day_slices ordered pd (pylist.range 0 req_days))) zero)
    as [total ->]; [|by eauto].
  apply (intra_day_pairs_defined _ ordered); [done|].
  by rewrite day_slices_cover.
Qed.

(** C1. For a non-empty ordered route and a positive day count, the place
    ids of the day plans, put end to end in day order, are the ids of the
    route: none omitted, none repeated.  The day plans are produced whenever
    the distances between the points of the route are defined. *)
Theorem day_plans_cover_route ordered req_days :
  ordered ≠ [] → 0 < req_days →
  (∀ ds total, split_days M ordered req_days = Ok (ds, total) →
     mjoin (place_ids <$> ds) = _id <$> ordered) ∧
  (distances_defined M ordered →
     ∃ ds total, split_days M ordered req_days = Ok (ds, total)).
Proof.
  intros _ Hdays. split.
  - intros ds total. by apply split_days_place_ids.
  - by apply split_days_defined.
Qed.

(** With one place a day, the slices are the points one by one. *)
Lemma day_slices_singletons ordered i k :
  0 ≤ i → (i = 0 → ordered ≠ []) →
  day_slices ordered 1 (seqZ i (Z.of_nat k)) =
    (λ p, [p]) <$> take k (drop (Z.to_nat i) ordered).
Proof.
  revert i. induction k as [|k IH]; intros i Hi Hne; [done|].
  rewrite seqZ_cons; [lia|].
  replace (Z.pred (Z.of_nat (S k))) with (Z.of_nat k) by lia.
  rewrite day_slices_cons. cbv zeta.
  rewrite slice_nonneg; [lia|].
  replace (Z.to_nat ((i + 1) * 1 - i * 1)) with 1%nat by lia.
  replace (Z.to_nat (i * 1)) with (Z.to_nat i) by lia.
  destruct (drop (Z.to_nat i) ordered) as [|x rest] eqn:Hdrop.
  - assert ((1 <=? i) = true) as ->; [|done].
    apply Z.leb_le. destruct (decide (i = 0)) as [->|]; [|lia].
    by destruct (Hne eq_refl).
  - cbn [take bool_decide decide_rel andb fmap list_fmap].
    rewrite IH; [lia..|]. do 3 f_equal.
    replace (Z.to_nat (Z.succ i)) with (Z.to_nat i + 1)%nat by lia.
    by rewrite -drop_drop Hdrop.
Qed.

Lemma adjacent_singletons (ps : list point) :
  mjoin (adjacent <$> ((λ p, [p]) <$> ps)) = [].
Proof. induction ps as [|p ps IH]; [done|]. by rewrite !fmap_cons /= IH. Qed.

Lemma split_days_excess ordered req_days :
  ordered ≠ [] → pylist.len ordered ≤ req_days →
  split_days M ordered req_days =
    Ok (plans_from 0 ((λ p, [p]) <$> ordered), zero).
Proof.
  intros Hne Hlen.
  assert (0 < pylist.len ordered) as Hpos
    by (destruct ordered; [done|rewrite /pylist.len /=; lia]).
  rewrite (split_days_slices _ _ 1).
  { rewrite /per_day_of. destruct (Z.eqb_spec req_days 0); [lia|]. f_equal.
    pose proof (Z.div_mod (pylist.len ordered) req_days ltac:(lia)) as Hdm.
    pose proof (Z.mod_pos_bound (pylist.len ordered) req_days ltac:(lia)) as Hmod.
    destruct (decide (pylist.len ordered = req_days)) as [Heq|Hlt].
    - rewrite Heq Z_div_same_full; [lia|]. rewrite Z_mod_same_full /=. lia.
    - rewrite Z.div_small; [lia|]. rewrite Z.mod_small; [lia|].
      destruct (Z.eqb_spec (pylist.len ordered) 0); lia. }
  cbv zeta. rewrite /pylist.range -(Z2Nat.id (req_days - 0)); [lia|].
  rewrite day_slices_singletons; [done..|].
  rewrite drop_0 take_ge; [rewrite /pylist.len in Hlen; lia|].
  by rewrite adjacent_singletons.
Qed.

(** C4. Three places with [days = 5] give exactly three day plans, one
    place each.  A day whose slice is empty, at index 1 or more, ends the
    loop; so when the day count is at least the number of points, as many
    days are emitted as there are points, none of them empty. *)
Theorem excess_days_stop_early :
  (∀ p1 p2 p3,
     split_days M [p1; p2; p3] 5 =
       Ok ([mkDayPlan 1 [_id p1]; mkDayPlan 2 [_id p2]; mkDayPlan 3 [_id p3]],
           zero)) ∧
  (∀ ordered pd i ixs ds total,
     pylist.slice ordered (i * pd) ((i + 1) * pd) = [] → 1 ≤ i →
     day_loop M ordered pd (i :: ixs) ds total = Ok (ds, total)) ∧
  (∀ ordered req_days,
     ordered ≠ [] → pylist.len ordered ≤ req_days →
     ∃ ds, split_days M ordered req_days = Ok (ds, zero) ∧
           length ds = length ordered ∧
           ∀ k p, ordered !! k = Some p →
                  ds !! k = Some (mkDayPlan (Z.of_nat k + 1) [_id p])).
Proof.
  split_and!.
  - intros p1 p2 p3. by rewrite split_days_excess.
  - intros ordered pd i ixs ds total Hnil Hi.
    rewrite day_loop_cons /= Hnil /=.
    by assert ((1 <=? i) = true) as -> by lia.
  - intros ordered req_days Hne Hlen. eexists. split; [by apply split_days_excess|].
    split; [by rewrite plans_from_length length_fmap|].
    intros k p Hk.
    rewrite (plans_from_lookup _ _ _ [p]); [by rewrite list_lookup_fmap Hk|].
    done.
Qed.

(** C5. The bucket size of the day partition is
    [max(1, n // days + (1 if n % days else 0))], which for [n >= 1] is the
    ceiling of [n / days]: the least [k] with [n <= k * days].  For five
    places and [days = 2] it is 3: day 1 gets the first three places, day 2
    the last two. *)
Theorem per_day_bucket_size :
  (∀ (ordered : list point) req_days, 0 < req_days →
     let n := pylist.len ordered in
     per_day_of n req_days =
       Ok (Z.max 1 (n / req_days + (if n mod req_days =? 0 then 0 else 1)))) ∧
  (∀ (ordered : list point) req_days pd, ordered ≠ [] → 0 < req_days →
     per_day_of (pylist.len ordered) req_days = Ok pd →
     (pd - 1) * req_days < pylist.len ordered ≤ pd * req_days) ∧
  (∀ p1 p2 p3 p4 p5,
     per_day_of (pylist.len [p1; p2; p3; p4; p5]) 2 = Ok 3 ∧
     split_days M [p1; p2; p3; p4; p5] 2 =
       (total ← add_distances M [(p1, p2); (p2, p3); (p4, p5)] zero ;
        Ok ([mkDayPlan 1 [_id p1; _id p2; _id p3];
             mkDayPlan 2 [_id p4; _id p5]], total))).
Proof.
  split_and!.
  - intros ordered req_days Hdays n. rewrite /per_day_of.
    destruct (Z.eqb_spec req_days 0); [lia|done].
  - intros ordered req_days pd Hne Hdays Hpd.
    assert (1 ≤ pylist.len ordered)
      by (destruct ordered; [done|rewrite /pylist.len /=; lia]).
    apply per_day_of_pos in Hpd as (_ & ? & Hceil); [|lia..].
    split; [by apply Hceil|done].
  - intros p1 p2 p3 p4 p5. split; [done|].
    by rewrite (split_days_slices _ _ 3).
Qed.

End PartitionFacts.

(** ** The handler *)

Section HandlerFacts.

Variable M : libm.
Variable new_id : db → string.

Lemma generate_itinerary_unfold req s :
  generate_itinerary M new_id req s =
    let places := user_places (req_user_id req) s in
    let s1 := after_get (req_user_id req) s in
    if bool_decide (places = []) then
      (Raise (HTTPException 400 "No saved places found for this user"), s1)
    else
      match order_by_proximity M (place_point <$> places) with
      | Raise e => (Raise e, s1)
      | Ok ordered =>
        match split_days M ordered (req_days req) with
        | Raise e => (Raise e, s1)
        | Ok (ds, total_distance) =>
          let it := itinerary_of req ds total_distance in
          (Ok (new_id s1, it),
           mkDb (place_coll s1) (itinerary_coll s1 ++ [(new_id s1, it)])
             (calls s1 ++ [CallCreateDocument "itinerary"]))
        end
      end.
Proof.
  rewrite /generate_itinerary /mbind /stateE_bind /get_documents_place /=.
  fold (user_places (req_user_id req) s). fold (after_get (req_user_id req) s).
  case_bool_decide; [done|]. rewrite /lift.
  destruct (order_by_proximity M _) as [ordered|e]; [|done].
  by destruct (split_days M ordered _) as [[ds total]|e].
Qed.

(** C8. A generate request for a user with no saved places is answered
    with HTTP 400 and a message.  Nothing is created: the itineraries of
    the store are unchanged, and the only call made to the store is the
    query for the places.  The answer does not depend on the planner. *)
Theorem generate_itinerary_no_places req s :
  user_places (req_user_id req) s = [] →
  ∃ s',
    generate_itinerary M new_id req s =
      (Raise (HTTPException 400 "No saved places found for this user"), s') ∧
    place_coll s' = place_coll s ∧
    itinerary_coll s' = itinerary_coll s ∧
    calls s' = calls s ++ [CallGetDocuments "place" (req_user_id req)] ∧
    ∀ c, c ∈ drop (length (calls s)) (calls s') → c ≠ CallCreateDocument "itinerary".
Proof.
  intros Hnone. exists (after_get (req_user_id req) s).
  rewrite generate_itinerary_unfold /= Hnone /=.
  split_and!; [done..|].
  intros c. rewrite drop_app_length. by intros ->%list_elem_of_singleton.
Qed.

Lemma generate_itinerary_returns req s :
  0 < req_days req →
  user_places (req_user_id req) s ≠ [] →
  distances_defined M (place_point <$> user_places (req_user_id req) s) →
  ∃ id it s', generate_itinerary M new_id req s = (Ok (id, it), s').
Proof.
  intros Hdays Hne Hd. rewrite generate_itinerary_unfold. cbv zeta.
  case_bool_decide; [done|].
  destruct (order_by_proximity_defined M _ Hd) as [ordered Hord]. rewrite Hord.
  destruct (split_days_defined M ordered (req_days req)) as (ds & total & ->);
    [done| |by eauto].
  eapply distances_defined_subseteq; [|exact Hd].
  intros p Hp. by rewrite -(order_by_proximity_Permutation M _ _ Hord).
Qed.

(** C6. The total distance of the itinerary is the sum, day after day, of
    the distances between consecutive points inside each day, and nothing
    else: nothing is added between the last point of a day and the first of
    the next (two points on two days total zero, whatever lies between
    them).  The itinerary holds that sum rounded to two decimals. *)
Theorem total_distance_intra_day req s :
  0 < req_days req →
  (∀ id it s',
     generate_itinerary M new_id req s = (Ok (id, it), s') →
     ∃ ordered slices total,
       order_by_proximity M (place_point <$> user_places (req_user_id req) s)
         = Ok ordered ∧
       mjoin slices = ordered ∧
       days it = plans_from 0 slices ∧
       add_distances M (mjoin (adjacent <$> slices)) zero = Ok total ∧
       total_distance_km it = Some (float_round total 2)) ∧
  (user_places (req_user_id req) s ≠ [] →
   distances_defined M (place_point <$> user_places (req_user_id req) s) →
   ∃ id it s', generate_itinerary M new_id req s = (Ok (id, it), s')) ∧
  (∀ p q, split_days M [p; q] 2 =
            Ok ([mkDayPlan 1 [_id p]; mkDayPlan 2 [_id q]], zero)).
Proof.
  intros Hdays. split_and!.
  - intros id it s'. rewrite generate_itinerary_unfold. cbv zeta.
    case_bool_decide; [done|].
    destruct (order_by_proximity M _) as [ordered|e] eqn:Hord; [|done].
    destruct (split_days M ordered _) as [[ds total]|e] eqn:Hsplit; [|done].
    intros [= <- <- <-].
    destruct (per_day_of (pylist.len ordered) (req_days req)) as [pd|] eqn:Hpd.
    2: { by rewrite /split_days Hpd in Hsplit. }
    rewrite (split_days_slices _ _ _ pd) // in Hsplit. cbv zeta in Hsplit.
    apply bind_Ok in Hsplit as (total' & Htotal & [= <- <-]).
    exists ordered, (day_slices ordered pd (pylist.range 0 (req_days req))), total'.
    split_and!; [done| |done..].
    by apply day_slices_cover.
  - by apply generate_itinerary_returns.
  - intros p q. by rewrite split_days_excess.
Qed.

End HandlerFacts.

(** ** The ordering over the store of list objects *)

Section MutFacts.

Variable M : libm.

Lemma read_Some (h : gmap nat (list point)) r l :
  h !! r = Some l → Mut.read r h = (Ok l, h).
Proof. intros Hr. by rewrite /Mut.read Hr. Qed.

Lemma stateE_bind_Ok {S A B} (c : stateE S A) (k : A → stateE S B) s x s' :
  c s = (Ok x, s') → (c ≫= k) s = k x s'.
Proof. intros Hc. by rewrite /mbind /stateE_bind Hc. Qed.

Lemma stateE_bind_Raise {S A B} (c : stateE S A) (k : A → stateE S B) s e s' :
  c s = (Raise e, s') → (c ≫= k) s = (Raise e, s').
Proof. intros Hc. by rewrite /mbind /stateE_bind Hc. Qed.

Lemma pop_spec (h : gmap nat (list point)) r l i :
  h !! r = Some l →
  Mut.pop r i h =
    match pylist.pop l i with
    | Ok (x, l') => (Ok x, <[r := l']> h)
    | Raise e => (Raise e, h)
    end.
Proof.
  intros Hr. rewrite /Mut.pop (stateE_bind_Ok _ _ _ l h); [by apply read_Some|].
  destruct (pylist.pop l i) as [[x l']|e]; [|done].
  by rewrite (stateE_bind_Ok _ _ _ (x, l') h).
Qed.

Lemma append_spec (h : gmap nat (list point)) r l x :
  h !! r = Some l → Mut.append r x h = (Ok (), <[r := l ++ [x]]> h).
Proof.
  intros Hr. by rewrite /Mut.append (stateE_bind_Ok _ _ _ l h); [apply read_Some|].
Qed.

(** The loop over the store computes what the loop over values computes,
    leaves the result in [ordered], and touches no object but [remaining]
    and [ordered]. *)
Lemma Mut_while_remaining_spec fuel remaining ordered (h : gmap nat (list point)) rs os :
  remaining ≠ ordered →
  h !! remaining = Some rs → h !! ordered = Some os →
  ∃ r h',
    Mut.while_remaining M fuel remaining ordered h = (r, h') ∧
    (∀ k, k ≠ remaining → k ≠ ordered → h' !! k = h !! k) ∧
    match while_remaining M fuel rs os with
    | Ok out => r = Ok () ∧ h' !! ordered = Some out
    | Raise e => r = Raise e
    end.
Proof.
  intros Hne. revert h rs os.
  induction fuel as [|fuel IH]; intros h [|x rs] os Hrem Hord.
  1,3: exists (Ok ()), h; split_and!; [|done..];
       cbn [Mut.while_remaining];
       by rewrite (stateE_bind_Ok _ _ _ [] h); [apply read_Some|].
  { exists (Raise OutOfFuel), h. split_and!; [|done..].
    cbn [Mut.while_remaining].
    by rewrite (stateE_bind_Ok _ _ _ (x :: rs) h); [apply read_Some|]. }
  cbn [Mut.while_remaining while_remaining].
  rewrite (stateE_bind_Ok _ _ _ (x :: rs) h); [by apply read_Some|].
  rewrite (stateE_bind_Ok _ _ _ os h); [by apply read_Some|].
  destruct (pylist.last os) as [l|e] eqn:Hlast.
  2: { exists (Raise e), h. by rewrite (stateE_bind_Raise _ _ _ e h). }
  rewrite (stateE_bind_Ok _ _ _ l h) //. cbn [mbind result_bind].
  destruct (scan M (latitude l) (longitude l) (x :: rs) 0 0 None) as [[idx best]|e]
    eqn:Hscan.
  2: { exists (Raise e), h. by rewrite (stateE_bind_Raise _ _ _ e h). }
  rewrite (stateE_bind_Ok _ _ _ (idx, best) h) //. cbn [mbind result_bind].
  destruct (pylist.pop (x :: rs) idx) as [[p rs']|e] eqn:Hpop.
  2: { exists (Raise e), h. split_and!; [|done..].
       by rewrite (stateE_bind_Raise _ _ _ e h) // (pop_spec _ _ (x :: rs)) // Hpop. }
  cbn [mbind result_bind].
  rewrite (stateE_bind_Ok _ _ _ p (<[remaining := rs']> h)).
  { by rewrite (pop_spec _ _ (x :: rs)) // Hpop. }
  rewrite (stateE_bind_Ok _ _ _ () (<[ordered := os ++ [p]]> (<[remaining := rs']> h))).
  { apply append_spec. by rewrite lookup_insert_ne. }
  destruct (IH (<[ordered := os ++ [p]]> (<[remaining := rs']> h)) rs' (os ++ [p]))
    as (r & h' & -> & Hframe & Hres).
  - by rewrite lookup_insert_ne // lookup_insert_eq.
  - by rewrite lookup_insert_eq.
  - exists r, h'. split_and!; [done| |done].
    intros k Hk1 Hk2. by rewrite Hframe // !lookup_insert_ne.
Qed.

(** C10. [order_by_proximity] does not change the list it is given: when
    it returns or raises, the list object behind its argument holds the same
    elements in the same order, and so does every other object that existed
    before the call.  The result is a new object holding what the function
    computes on the list's value. *)
Theorem order_by_proximity_keeps_argument (h : gmap nat (list point)) points l :
  h !! points = Some l →
  ∃ r h',
    Mut.order_by_proximity M points h = (r, h') ∧
    h' !! points = Some l ∧
    (∀ k v, h !! k = Some v → h' !! k = Some v) ∧
    match order_by_proximity M l with
    | Ok out => ∃ res, r = Ok res ∧ h !! res = None ∧ h' !! res = Some out
    | Raise e => r = Raise e
    end.
Proof.
  intros Hpoints. rewrite /Mut.order_by_proximity.
  rewrite (stateE_bind_Ok _ _ _ l h); [by apply read_Some|].
  pose proof (is_fresh (dom h)) as Hfresh%not_elem_of_dom.
  pose (remaining := fresh (dom h)). fold remaining in Hfresh.
  destruct l as [|p ps].
  { exists (Ok remaining), (<[remaining := []]> h). split_and!; [done| | |].
    - rewrite lookup_insert_ne //. congruence.
    - intros k v Hk. rewrite lookup_insert_ne //. congruence.
    - exists remaining. split_and!; [done..|]. apply lookup_insert_eq. }
  pose (h1 := <[remaining := p :: ps]> h).
  rewrite (stateE_bind_Ok _ _ _ remaining h1).
  { by rewrite /Mut.copy (stateE_bind_Ok _ _ _ (p :: ps) h); [apply read_Some|]. }
  pose (h2 := <[remaining := ps]> h1).
  rewrite (stateE_bind_Ok _ _ _ p h2).
  { by rewrite (pop_spec _ _ (p :: ps)); [apply lookup_insert_eq|]. }
  pose proof (is_fresh (dom h2)) as Hfresh2%not_elem_of_dom.
  pose (ordered := fresh (dom h2)). fold ordered in Hfresh2.
  pose (h3 := <[ordered := [p]]> h2).
  rewrite (stateE_bind_Ok _ _ _ ordered h3) //.
  assert (remaining ≠ ordered) as Hne.
  { intros Heq. rewrite -Heq /h2 lookup_insert_eq in Hfresh2. done. }
  assert (h3 !! remaining = Some ps) as Hrem
    by by rewrite /h3 lookup_insert_ne // /h2 lookup_insert_eq.
  assert (h3 !! ordered = Some [p]) as Hord by by rewrite /h3 lookup_insert_eq.
  rewrite (stateE_bind_Ok _ _ _ ps h3); [by apply read_Some|].
  destruct (Mut_while_remaining_spec (length ps) remaining ordered h3 ps [p])
    as (r & h' & Hloop & Hframe & Hres); [done..|].
  assert (∀ k v, h !! k = Some v → h' !! k = Some v) as Hkeep.
  { intros k v Hk.
    assert (k ≠ remaining) by congruence.
    assert (k ≠ ordered).
    { intros ->. by rewrite /h2 /h1 !lookup_insert_ne // Hk in Hfresh2. }
    by rewrite Hframe // /h3 /h2 /h1 !lookup_insert_ne. }
  rewrite order_by_proximity_cons.
  destruct (while_remaining M (length ps) ps [p]) as [out|e].
  - destruct Hres as [-> Hout].
    exists (Ok ordered), h'. rewrite (stateE_bind_Ok _ _ _ () h') //.
    split_and!; [done|by apply Hkeep|done|].
    exists ordered. split_and!; [done| |done].
    destruct (h !! ordered) as [v|] eqn:Hv; [|done].
    rewrite /h2 /h1 !lookup_insert_ne // in Hfresh2. congruence.
  - subst r. exists (Raise e), h'. rewrite (stateE_bind_Raise _ _ _ e h') //.
    split_and!; [done|by apply Hkeep|done..].
Qed.

End MutFacts.

(** * The properties at sample inputs *)

Section Witnesses.

Import Sample.

Lemma day_plans_cover_route_witness :
  ∃ ds total,
    split_days glibc [A1; A2; A3; B1; B2] 2 = Ok (ds, total) ∧
    mjoin (place_ids <$> ds) = ["a1"; "a2"; "a3"; "b1"; "b2"].
Proof.
  destruct (day_plans_cover_route glibc [A1; A2; A3; B1; B2] 2) as [Hcat Hdef];
    [discriminate|reflexivity|].
  destruct Hdef as (ds & total & Hsplit);
    [apply (bool_decide_unpack _); vm_compute; exact I|].
  exists ds, total. split; [exact Hsplit|exact (Hcat ds total Hsplit)].
Defined.

Lemma order_by_proximity_permutation_witness :
  ∃ out,
    order_by_proximity glibc [A1; B1; A2; B2; A3] = Ok out ∧
    out ≡ₚ [A1; B1; A2; B2; A3].
Proof.
  destruct (order_by_proximity_permutation glibc [A1; B1; A2; B2; A3])
    as (Hperm & Hdef & _); [discriminate|].
  destruct Hdef as [out Hout];
    [apply (bool_decide_unpack _); vm_compute; exact I|].
  exists out. split; [exact Hout|exact (proj1 (Hperm out Hout))].
Defined.

Lemma haversine_km_no_clamp_witness :
  haversine_km glibc (of_int 0) (of_int 0) (of_int 0) (of_int 180) =
    Ok half_turn_km ∧
  haversine_km glibc (of_int 8) (of_int 0) (of_int (-8)) (of_int 180) =
    Raise ValueError.
Proof.
  split.
  - destruct (haversine_km_no_clamp glibc (of_int 0) (of_int 0) (of_int 0)
                (of_int 180) one) as [Hret _];
      [vm_compute; reflexivity|].
    destruct Hret as (_ & _ & Hret); [vm_compute; reflexivity..|].
    etrans; [apply Hret; vm_compute; reflexivity|].
    vm_compute. reflexivity.
  - destruct (haversine_km_no_clamp glibc (of_int 8) (of_int 0) (of_int (-8))
                (of_int 180) (make (2 ^ 52 + 1) (-52))) as (_ & Hraise & _);
      [vm_compute; reflexivity|].
    apply Hraise. vm_compute. reflexivity.
Defined.

Lemma excess_days_stop_early_witness :
  ∃ ds, split_days glibc [A1; B1; A2] 5 = Ok (ds, zero) ∧ length ds = 3%nat.
Proof.
  destruct (excess_days_stop_early glibc) as (_ & _ & Hexcess).
  destruct (Hexcess [A1; B1; A2] 5) as (ds & Hds & Hlen & _);
    [discriminate|vm_compute; discriminate|].
  exists ds. split; [exact Hds|exact Hlen].
Defined.

Lemma per_day_bucket_size_witness :
  per_day_of 5 2 = Ok 3 ∧ (3 - 1) * 2 < 5 ≤ 3 * 2.
Proof.
  destruct (per_day_bucket_size glibc) as (Hformula & Hceil & _). split.
  - exact (Hformula [A1; A2; A3; B1; B2] 2 ltac:(lia)).
  - exact (Hceil [A1; A2; A3; B1; B2] 2 3 ltac:(discriminate) ltac:(lia) eq_refl).
Defined.

Lemma total_distance_intra_day_witness :
  ∃ id it s' total,
    generate_itinerary glibc new_id (request "ann" 1) store = (Ok (id, it), s') ∧
    total_distance_km it = Some (float_round total 2).
Proof.
  destruct (total_distance_intra_day glibc new_id (request "ann" 1) store)
    as (Hsum & Hret & _); [reflexivity|].
  destruct Hret as (id & it & s' & Hgen);
    [vm_compute; discriminate
    |apply (bool_decide_unpack _); vm_compute; exact I|].
  destruct (Hsum id it s' Hgen) as (ordered & slices & total & _ & _ & _ & _ & Htotal).
  exists id, it, s', total. split; [exact Hgen|exact Htotal].
Defined.

Lemma order_by_proximity_greedy_witness :
  (∃ route,
     order_by_proximity glibc [A1; B1; A2; B2; A3] = Ok (A1 :: route) ∧
     greedy_from glibc [B1; A2; B2; A3] A1 route) ∧
  order_by_proximity glibc [A1; A2; A3] = Ok [A1; A2; A3].
Proof.
  split.
  - destruct (order_by_proximity_greedy glibc A1 [B1; A2; B2; A3]) as (_ & Hgreedy & _).
    apply Hgreedy. apply (bool_decide_unpack _). vm_compute. exact I.
  - destruct (order_by_proximity_greedy glibc A1 [A2; A3]) as (_ & _ & Hsame).
    apply (Hsame zero); [vm_compute; reflexivity|].
    repeat constructor.
Defined.

Lemma generate_itinerary_no_places_witness :
  ∃ s',
    generate_itinerary glibc new_id (request "carol" 3) store =
      (Raise (HTTPException 400 "No saved places found for this user"), s') ∧
    itinerary_coll s' = [].
Proof.
  destruct (generate_itinerary_no_places glibc new_id (request "carol" 3) store)
    as (s' & Hgen & _ & Hit & _); [vm_compute; reflexivity|].
  exists s'. split; [exact Hgen|exact Hit].
Defined.

Lemma order_by_proximity_keeps_argument_witness :
  ∃ r h',
    Mut.order_by_proximity glibc 0%nat heap1 = (r, h') ∧
    h' !! 0%nat = Some [A1; B1; A2].
Proof.
  destruct (order_by_proximity_keeps_argument glibc heap1 0%nat [A1; B1; A2])
    as (r & h' & Hrun & Hkeep & _); [vm_compute; reflexivity|].
  exists r, h'. split; [exact Hrun|exact Hkeep].
Defined.

(** The distance function at two valid points, nearly antipodal: the
    computed [a] is [1 + 2^-52], and the square root of [1 - a] raises. *)
Lemma haversine_km_raises_near_antipodes :
  haversine_a glibc (of_int 8) (of_int 0) (of_int (-8)) (of_int 180) =
    Ok (make (2 ^ 52 + 1) (-52)) ∧
  haversine_km glibc (of_int 8) (of_int 0) (of_int (-8)) (of_int 180) =
    Raise ValueError ∧
  ¬ ∃ d, haversine_km glibc (of_int 8) (of_int 0) (of_int (-8)) (of_int 180) = Ok d.
Proof.
  split_and!; [vm_compute; reflexivity..|].
  intros [d Hd]. vm_compute in Hd. discriminate.
Qed.

(** The model run on the sample points. *)

Example haversine_km_half_turn :
  haversine_km glibc (of_int 0) (of_int 0) (of_int 0) (of_int 180) = Ok half_turn_km.
Proof. vm_compute. reflexivity. Qed.

Example float_round_half_turn :
  float_round half_turn_km 2 = of_int 2001509 /. of_int 100.
Proof. vm_compute. reflexivity. Qed.

Example order_by_proximity_sample :
  fmap (M := result) (fmap _id) (order_by_proximity glibc [A1; B1; A2; B2; A3]) =
    Ok ["a1"; "a2"; "a3"; "b1"; "b2"].
Proof. vm_compute. reflexivity. Qed.

Example generate_itinerary_sample :
  (generate_itinerary glibc new_id (request "ann" 1) store).1 =
    Ok ("itinerary-1",
        mkItinerary "ann" "Smart Itinerary" None
          [mkDayPlan 1 ["a1"; "a2"; "b1"]]
          (Some (of_int 2001509 /. of_int 100))).
Proof. vm_compute. reflexivity. Qed.

(** The two nearly antipodal places: on one day their distance is asked
    for and the request fails; on two days it is never computed. *)
Example split_days_antipodes :
  split_days glibc [N8; S8] 1 = Raise ValueError ∧
  split_days glibc [N8; S8] 2 =
    Ok ([mkDayPlan 1 ["n8"]; mkDayPlan 2 ["s8"]], zero).
Proof. split; vm_compute; reflexivity. Qed.

End Witnesses.

(** * More properties *)

(** ** More on the distance function *)

Section DistanceMore.

Variable M : libm.

Lemma sub_diag x : is_finite x = true → x -. x = zero.
Proof.
  destruct x as [[]|[]| |s m e]; try done.
  intros _. by rewrite /Float.sub /SFsub /shl_align Z.min_id Z.sub_diag /=.
Qed.

Lemma mul_zero_r x : is_finite x = true → ∃ s, x *. zero = S754_zero s.
Proof. destruct x as [[]|[]| |s m e]; try done; by eauto. Qed.

Lemma add_zero_l s : zero +. S754_zero s = zero.
Proof. by destruct s. Qed.

(** X1. The distance from a point to itself is zero, for a C library that is
    exact at zero. *)
Theorem haversine_km_same_point lat lon c :
  is_finite lat = true → is_finite lon = true →
  c_sin M zero = zero → c_pow M zero two = zero → c_atan2 M zero one = zero →
  math.cos M (math.radians lat) = Ok c → is_finite (c *. c) = true →
  haversine_km M lat lon lat lon = Ok zero.
Proof.
  intros Hlat Hlon Hsin Hpow Hatan Hcos Hfin.
  assert (math.sin M zero = Ok zero) as Hsin0
    by by rewrite /math.sin /math.math_1 Hsin.
  assert (float_pow M zero two = Ok zero) as Hpow0
    by by rewrite /float_pow Hpow.
  assert (math.atan2 M zero one = Ok zero) as Hatan0
    by by rewrite /math.atan2 /math.math_2 Hatan.
  rewrite (haversine_km_unfold _ _ _ _ _ zero).
  { rewrite /haversine_a !sub_diag //.
    change (math.radians zero /. two) with zero.
    rewrite Hsin0. cbn [mbind result_bind]. rewrite Hpow0 Hcos.
    cbn [mbind result_bind].
    destruct (mul_zero_r (c *. c) Hfin) as [s ->]. by rewrite add_zero_l. }
  change (math.sqrt zero) with (Ok zero).
  change (math.sqrt (one -. zero)) with (Ok one).
  cbn [mbind result_bind]. by rewrite Hatan0.
Qed.

End DistanceMore.

(** ** Symmetry of the distance function *)

Lemma binary_round_aux_opp s m e l :
  binary_round_aux prec emax (negb s) m e l =
    SFopp (binary_round_aux prec emax s m e l).
Proof.
  rewrite /binary_round_aux.
  destruct (shr_fexp prec emax m e l) as [mrs' e'].
  destruct (shr_fexp prec emax _ e' loc_Exact) as [mrs'' e''].
  destruct (shr_m mrs'') as [|p|p]; [done| |done].
  by case_match.
Qed.

Lemma binary_round_opp s m e :
  binary_round prec emax (negb s) m e = SFopp (binary_round prec emax s m e).
Proof.
  rewrite /binary_round. destruct (shl_align _ _ _) as [mz ez].
  apply binary_round_aux_opp.
Qed.

Lemma opp_involutive x : SFopp (SFopp x) = x.
Proof. destruct x as [s|s| |s m e]; simpl; by rewrite ?negb_involutive. Qed.

Lemma mul_opp_l x y : SFopp x *. y = SFopp (x *. y).
Proof.
  destruct x as [sx|sx| |sx mx ex], y as [sy|sy| |sy my ey];
    rewrite /Float.mul /=; try done; try by destruct sx, sy.
  rewrite -binary_round_aux_opp. by destruct sx, sy.
Qed.

Lemma div_opp_l x y : SFopp x /. y = SFopp (x /. y).
Proof.
  destruct x as [sx|sx| |sx mx ex], y as [sy|sy| |sy my ey];
    rewrite /Float.div /=; try done; try by destruct sx, sy.
  destruct (SFdiv_core_binary _ _ _ _ _ _) as [[mz ez] lz].
  rewrite -binary_round_aux_opp. by destruct sx, sy.
Qed.

Lemma mul_comm x y : x *. y = y *. x.
Proof.
  destruct x as [sx|sx| |sx mx ex], y as [sy|sy| |sy my ey];
    rewrite /Float.mul /=; try done; try by destruct sx, sy.
  by rewrite Pos.mul_comm Z.add_comm xorb_comm.
Qed.

Lemma sub_swap x y : y -. x = SFopp (x -. y) ∨ y -. x = x -. y.
Proof.
  destruct x as [sx|sx| |sx mx ex], y as [sy|sy| |sy my ey];
    rewrite /Float.sub /=; try (by left); try (by right);
    try (by destruct sx, sy; auto).
  rewrite (Z.min_comm ey ex).
  set (X := cond_Zopp sx _). set (Y := cond_Zopp sy _).
  replace (Y - X) with (- (X - Y)) by lia.
  destruct (X - Y) as [|p|p]; simpl; [by right|left..].
  - apply (binary_round_opp false).
  - by rewrite -(binary_round_opp true).
Qed.

Section Symmetry.

Variable M : libm.

(** The sine of the C library is odd, its square is even. *)
Hypothesis sin_odd : ∀ x, c_sin M (SFopp x) = SFopp (c_sin M x).
Hypothesis pow_even : ∀ x, c_pow M (SFopp x) two = c_pow M x two.

Lemma sin2_half_opp d : sin2_half M (SFopp d) = sin2_half M d.
Proof.
  rewrite /sin2_half /math.radians mul_opp_l div_opp_l.
  set (x := d *. math.degToRad /. two).
  rewrite /math.sin /math.math_1 sin_odd.
  assert (∀ y, is_nan (SFopp y) = is_nan y) as Hnan by by intros [].
  assert (∀ y, is_inf (SFopp y) = is_inf y) as Hinf by by intros [].
  assert (∀ y, is_finite (SFopp y) = is_finite y) as Hfin by by intros [].
  rewrite !Hnan Hinf Hfin.
  repeat case_match; try done.
  cbn [mbind result_bind]. by rewrite /float_pow pow_even Hfin.
Qed.

Lemma sin2_half_swap x y : sin2_half M (y -. x) = sin2_half M (x -. y).
Proof.
  destruct (sub_swap x y) as [-> | ->]; [apply sin2_half_opp|done].
Qed.

Lemma haversine_a_sin2 lat1 lon1 lat2 lon2 :
  haversine_a M lat1 lon1 lat2 lon2 =
    (p1 ← sin2_half M (lat2 -. lat1) ;
     c1 ← math.cos M (math.radians lat1) ;
     c2 ← math.cos M (math.radians lat2) ;
     p2 ← sin2_half M (lon2 -. lon1) ;
     Ok (p1 +. c1 *. c2 *. p2)).
Proof.
  rewrite /haversine_a /sin2_half.
  destruct (math.sin M (math.radians (lat2 -. lat1) /. two)) as [s1|]; [|done].
  cbn [mbind result_bind].
  destruct (float_pow M s1 two) as [p1|]; [|done]. cbn [mbind result_bind].
  destruct (math.cos M (math.radians lat1)) as [c1|]; [|done].
  cbn [mbind result_bind].
  destruct (math.cos M (math.radians lat2)) as [c2|]; [|done].
  cbn [mbind result_bind].
  by destruct (math.sin M (math.radians (lon2 -. lon1) /. two)) as [s2|].
Qed.

(** X2. The distance is symmetric, with the same exception on both sides
    when it raises. *)
Theorem haversine_km_symmetric lat1 lon1 lat2 lon2 :
  haversine_km M lat2 lon2 lat1 lon1 = haversine_km M lat1 lon1 lat2 lon2.
Proof.
  rewrite /haversine_km. f_equal.
  rewrite !haversine_a_sin2 (sin2_half_swap lat1 lat2) (sin2_half_swap lon1 lon2).
  destruct (sin2_half M (lat1 -. lat2)) as [p1|]; [|done]. cbn [mbind result_bind].
  pose proof (math_1_raises (c_cos M) (math.radians lat1)) as H1.
  pose proof (math_1_raises (c_cos M) (math.radians lat2)) as H2.
  rewrite /math.cos.
  destruct (math.math_1 (c_cos M) (math.radians lat1)) as [c1|e1],
           (math.math_1 (c_cos M) (math.radians lat2)) as [c2|e2];
    cbn [mbind result_bind]; try done.
  - by rewrite (mul_comm c2 c1).
  - by rewrite (H1 e1 eq_refl) (H2 e2 eq_refl).
Qed.

End Symmetry.

(** ** More on the ordering *)

Section OrderingMore.

Variable M : libm.

#[local] Arguments scan : simpl never.

(** X3. Distinct ids stay distinct. *)
Theorem order_by_proximity_NoDup_ids points out :
  NoDup (_id <$> points) →
  order_by_proximity M points = Ok out →
  NoDup (_id <$> out).
Proof.
  intros Hnd Hout%order_by_proximity_Permutation. by rewrite Hout.
Qed.

Lemma scan_relabel (f : point → point) lat lon ps i idx best :
  (∀ p, latitude (f p) = latitude p ∧ longitude (f p) = longitude p) →
  scan M lat lon (f <$> ps) i idx best = scan M lat lon ps i idx best.
Proof.
  intros Hf. revert i idx best.
  induction ps as [|p ps IH]; intros i idx best; [done|].
  rewrite fmap_cons !scan_cons /dist_to.
  destruct (Hf p) as [-> ->].
  destruct (haversine_km M lat lon _ _) as [d|e]; [|done].
  cbn [mbind result_bind]. by rewrite !IH.
Qed.

Lemma last_relabel (f : point → point) (l : list point) :
  pylist.last (f <$> l) =
    match pylist.last l with
    | Ok x => Ok (f x)
    | Raise e => Raise e
    end.
Proof. rewrite /pylist.last fmap_last. by destruct (last l). Qed.

Lemma pop_relabel (f : point → point) (l : list point) i :
  pylist.pop (f <$> l) i =
    match pylist.pop l i with
    | Ok (x, l') => Ok (f x, f <$> l')
    | Raise e => Raise e
    end.
Proof.
  rewrite /pylist.pop list_lookup_fmap.
  destruct (l !! i) as [x|]; [|done]. simpl. by rewrite list_fmap_delete.
Qed.

Lemma while_remaining_relabel (f : point → point) fuel remaining ordered :
  (∀ p, latitude (f p) = latitude p ∧ longitude (f p) = longitude p) →
  while_remaining M fuel (f <$> remaining) (f <$> ordered) =
    fmap (M := result) (fmap f) (while_remaining M fuel remaining ordered).
Proof.
  intros Hf. revert remaining ordered.
  induction fuel as [|fuel IH]; intros [|r remaining] ordered; try done.
  rewrite fmap_cons. cbn [while_remaining]. rewrite -!fmap_cons.
  rewrite last_relabel.
  destruct (pylist.last ordered) as [l|]; [|done].
  cbn [mbind result_bind].
  destruct (Hf l) as [-> ->]. rewrite scan_relabel //.
  destruct (scan M _ _ _ _ _ _) as [[idx best]|e]; [|done].
  cbn [mbind result_bind]. rewrite pop_relabel.
  destruct (pylist.pop (r :: remaining) idx) as [[p rem']|e]; [|done].
  cbn [mbind result_bind].
  by rewrite -IH fmap_app.
Qed.

(** X4. The order depends on the coordinates and the positions only. *)
Theorem order_by_proximity_relabel (f : point → point) points :
  (∀ p, latitude (f p) = latitude p ∧ longitude (f p) = longitude p) →
  order_by_proximity M (f <$> points) =
    fmap (M := result) (fmap f) (order_by_proximity M points).
Proof.
  intros Hf. destruct points as [|p ps]; [done|].
  rewrite fmap_cons !order_by_proximity_cons length_fmap.
  by rewrite -(while_remaining_relabel f _ ps [p]).
Qed.

Lemma scan_aborts lat lon ps i idx best q e :
  q ∈ ps → dist_to M lat lon q = Raise e →
  ∃ e', scan M lat lon ps i idx best = Raise e'.
Proof.
  intros Hq He. revert i idx best.
  induction ps as [|p ps IH]; intros i idx best; [by apply elem_of_nil in Hq|].
  rewrite scan_cons.
  destruct (dist_to M lat lon p) as [d|e'] eqn:Hd; [|by eauto].
  cbn [mbind result_bind].
  apply elem_of_cons in Hq as [->|Hq]; [congruence|].
  case_match; by apply IH.
Qed.

(** X5. One undefined distance from the first point aborts the ordering. *)
Theorem order_by_proximity_aborts p ps q e :
  q ∈ ps → dist_to M (latitude p) (longitude p) q = Raise e →
  ∃ e', order_by_proximity M (p :: ps) = Raise e' ∧ math_error e'.
Proof.
  intros Hq He. rewrite order_by_proximity_cons.
  destruct ps as [|r ps]; [by apply elem_of_nil in Hq|].
  cbn [while_remaining length pylist.last last mbind result_bind latitude longitude].
  destruct (scan_aborts (latitude p) (longitude p) (r :: ps) 0 0 None q e Hq He)
    as [e' He'].
  exists e'. rewrite He'. split; [done|].
  by eapply scan_raises.
Qed.

Lemma ltb_nan_r x : x <. S754_nan = false.
Proof. by destruct x as [[]|[]| |[] m e]. Qed.

Lemma scan_nan_best lat lon ps i idx :
  ∀ r, scan M lat lon ps i idx (Some S754_nan) = Ok r → r = (idx, Some S754_nan).
Proof.
  revert i. induction ps as [|p ps IH]; intros i r; [by intros [= <-]|].
  rewrite scan_cons. intros (d & Hd & Hscan)%bind_Ok.
  rewrite ltb_nan_r in Hscan. by eapply IH.
Qed.

(** X6. NaN distance at the first remaining point: that point comes next. *)
Theorem order_by_proximity_nan_first p q ps out :
  dist_to M (latitude p) (longitude p) q = Ok S754_nan →
  order_by_proximity M (p :: q :: ps) = Ok out →
  out !! 1%nat = Some q.
Proof.
  intros Hnan. rewrite order_by_proximity_cons.
  cbn [while_remaining length pylist.last last mbind result_bind latitude longitude].
  rewrite scan_cons Hnan. cbn [mbind result_bind].
  intros ([idx best] & Hscan & Hrest)%bind_Ok.
  apply scan_nan_best in Hscan as [= -> ->].
  cbn [mbind result_bind pylist.pop lookup list_lookup delete list_delete] in Hrest.
  apply while_remaining_app in Hrest as (route & -> & _). done.
Qed.

End OrderingMore.

(** ** More on the day partition *)

Section PartitionMore.

Variable M : libm.

(** The slice of index [j] among those emitted from day [i] on is the
    stretch of [per_day] points from position [(i + j) * per_day], and only
    the slice of day 0 can be empty. *)
Lemma day_slices_lookup ordered pd i k j sl :
  1 ≤ pd → 0 ≤ i →
  day_slices ordered pd (seqZ i (Z.of_nat k)) !! j = Some sl →
  (j < k)%nat ∧
  sl = take (Z.to_nat pd) (drop ((Z.to_nat i + j) * Z.to_nat pd) ordered) ∧
  (sl = [] → i = 0 ∧ j = 0%nat).
Proof.
  intros Hpd. revert i j. induction k as [|k IH]; intros i j Hi; [done|].
  rewrite seqZ_cons; [lia|].
  replace (Z.pred (Z.of_nat (S k))) with (Z.of_nat k) by lia.
  rewrite day_slices_cons. cbv zeta.
  rewrite slice_nonneg; [nia|].
  replace (Z.to_nat ((i + 1) * pd - i * pd)) with (Z.to_nat pd) by lia.
  replace (Z.to_nat (i * pd)) with (Z.to_nat i * Z.to_nat pd)%nat by nia.
  destruct (bool_decide _ && _) eqn:Hbreak; [done|].
  destruct j as [|j].
  - intros [= <-]. split; [lia|]. split; [by rewrite Nat.add_0_r|].
    intros Hnil. rewrite Hnil bool_decide_eq_true_2 //= in Hbreak.
    split; [|done]. apply Z.leb_gt in Hbreak. lia.
  - intros Hj. apply IH in Hj as (Hlt & -> & Hnil); [|lia].
    split; [lia|]. split; [f_equal; f_equal; lia|].
    intros Hsl. destruct (Hnil Hsl). lia.
Qed.

Lemma day_slices_length ordered pd i k :
  1 ≤ pd → 0 ≤ i →
  (length (day_slices ordered pd (seqZ i (Z.of_nat k))) ≤ k)%nat.
Proof.
  intros Hpd Hi.
  destruct (day_slices ordered pd (seqZ i (Z.of_nat k))) as [|sl0 sls] eqn:Hs;
    [simpl; lia|].
  destruct (lookup_lt_is_Some_2 (sl0 :: sls) (length sls)) as [sl Hsl];
    [simpl; lia|].
  rewrite -Hs in Hsl. apply day_slices_lookup in Hsl as [? _]; [|done..].
  simpl. lia.
Qed.

Lemma split_days_Ok_slices ordered req_days ds total :
  0 < req_days → split_days M ordered req_days = Ok (ds, total) →
  ∃ pd, per_day_of (pylist.len ordered) req_days = Ok pd ∧ 1 ≤ pd ∧
        ds = plans_from 0 (day_slices ordered pd (seqZ 0 (Z.of_nat (Z.to_nat req_days)))).
Proof.
  intros Hdays Hsplit.
  destruct (per_day_of_defined (pylist.len ordered) req_days Hdays) as [pd Hpd].
  exists pd. split; [done|].
  apply per_day_of_pos in Hpd as Hpos; [|rewrite /pylist.len; lia|done].
  split; [lia|].
  rewrite (split_days_slices _ _ _ pd) // in Hsplit. cbv zeta in Hsplit.
  apply bind_Ok in Hsplit as (total' & _ & [= <- <-]).
  rewrite /pylist.range Z2Nat.id; [lia|]. by rewrite Z.sub_0_r.
Qed.

(** X7. The day plans are numbered 1, 2, ... in order, and there are at most
    as many as the request asks for. *)
Theorem day_plans_numbered ordered req_days ds total :
  0 < req_days → split_days M ordered req_days = Ok (ds, total) →
  Z.of_nat (length ds) ≤ req_days ∧
  ∀ k d, ds !! k = Some d → day d = Z.of_nat k + 1.
Proof.
  intros Hdays (pd & Hpd & Hpd1 & ->)%split_days_Ok_slices; [|done].
  split.
  - rewrite plans_from_length.
    pose proof (day_slices_length ordered pd 0 (Z.to_nat req_days) Hpd1 ltac:(lia)).
    lia.
  - intros k d Hk.
    destruct (lookup_lt_is_Some_2
                (day_slices ordered pd (seqZ 0 (Z.of_nat (Z.to_nat req_days)))) k)
      as [sl Hsl].
    { apply lookup_lt_Some in Hk. by rewrite plans_from_length in Hk. }
    rewrite (plans_from_lookup _ _ _ sl) // in Hk. by simplify_eq/=.
Qed.

(** X8. With a non-empty route every day has at least one place and at most
    [per_day]; every day but the last has exactly [per_day]; and the number
    of days is the least that covers the route. *)
Theorem day_plans_sizes ordered req_days pd ds total :
  ordered ≠ [] → 0 < req_days →
  per_day_of (pylist.len ordered) req_days = Ok pd →
  split_days M ordered req_days = Ok (ds, total) →
  (∀ k d, ds !! k = Some d →
     1 ≤ pylist.len (place_ids d) ≤ pd ∧
     ((S k < length ds)%nat → pylist.len (place_ids d) = pd)) ∧
  (pylist.len ds - 1) * pd < pylist.len ordered ≤ pylist.len ds * pd.
Proof.
  intros Hne Hdays Hpd Hsplit.
  apply split_days_Ok_slices in Hsplit as Hds; [|done].
  destruct Hds as (pd' & Hpd' & Hpd1 & ->).
  assert (pd' = pd) as -> by congruence.
  set (slices := day_slices ordered pd (seqZ 0 (Z.of_nat (Z.to_nat req_days)))).
  assert (∀ k sl, slices !! k = Some sl →
            sl = take (Z.to_nat pd) (drop (k * Z.to_nat pd) ordered) ∧ sl ≠ [])
    as Hslices.
  { intros k sl Hk. apply day_slices_lookup in Hk as (_ & -> & Hnil); [|done..].
    split; [done|]. intros Hsl. destruct (Hnil Hsl) as [_ ->].
    rewrite drop_0 in Hsl. apply take_nil_inv in Hsl as [?|?]; [lia|done]. }
  assert (∀ k sl, slices !! k = Some sl → (k * Z.to_nat pd < length ordered)%nat)
    as Hstart.
  { intros k sl [-> Hnil]%Hslices.
    destruct (decide (k * Z.to_nat pd < length ordered)%nat); [done|].
    by rewrite drop_ge ?take_nil in Hnil; [lia|]. }
  assert (mjoin slices = ordered) as Hcover.
  { rewrite /slices Z2Nat.id; [lia|].
    pose proof (day_slices_cover ordered req_days pd Hdays Hpd) as Hc.
    by rewrite /pylist.range Z.sub_0_r in Hc. }
  split.
  - intros k d Hk.
    destruct (lookup_lt_is_Some_2 slices k) as [sl Hsl].
    { apply lookup_lt_Some in Hk. by rewrite plans_from_length in Hk. }
    rewrite (plans_from_lookup _ _ _ sl) // in Hk. simplify_eq/=.
    destruct (Hslices k sl Hsl) as [Heq Hnil].
    rewrite /pylist.len length_fmap plans_from_length. split.
    + split; [destruct sl; [done|simpl; lia]|].
      rewrite Heq length_take. lia.
    + intros Hnext.
      destruct (lookup_lt_is_Some_2 slices (S k) Hnext) as [sl' Hsl'].
      apply Hstart in Hsl'. rewrite Heq length_take length_drop. lia.
  - rewrite /pylist.len plans_from_length.
    destruct (length slices) as [|K] eqn:HK.
    { apply nil_length_inv in HK. rewrite HK /= in Hcover. by subst. }
    split.
    + destruct (lookup_lt_is_Some_2 slices K) as [sl Hsl]; [lia|].
      apply Hstart in Hsl. nia.
    + assert (length ordered ≤ S K * Z.to_nat pd)%nat; [|nia].
      rewrite -{1}Hcover -HK. clear -Hslices.
      assert (∀ k sl, slices !! k = Some sl → (length sl ≤ Z.to_nat pd)%nat) as Hle.
      { intros k sl [-> _]%Hslices. rewrite length_take. lia. }
      clear Hslices. induction slices as [|sl0 sls IH]; [simpl; lia|].
      rewrite /= length_app.
      pose proof (Hle 0%nat sl0 eq_refl).
      assert (length (mjoin sls) ≤ length sls * Z.to_nat pd)%nat; [|lia].
      apply IH. intros k sl Hk. by apply (Hle (S k)).
Qed.

(** X9. An empty route gives one empty day, whatever the day count. *)
Theorem split_days_empty_route req_days :
  0 < req_days → split_days M [] req_days = Ok ([mkDayPlan 1 []], zero).
Proof.
  intros Hdays. rewrite (split_days_slices _ _ _ 1).
  { rewrite /per_day_of. destruct (Z.eqb_spec req_days 0); [lia|].
    by rewrite Z.div_0_l // Z.mod_0_l. }
  cbv zeta. rewrite /pylist.range seqZ_cons; [lia|].
  rewrite day_slices_cons. cbn -[seqZ day_slices].
  destruct (decide (req_days = 1)) as [->|Hne]; [done|].
  rewrite seqZ_cons; [lia|]. by rewrite day_slices_cons.
Qed.

(** X10. A day count of zero is a division by zero; a negative one gives no
    day at all. *)
Theorem split_days_nonpositive ordered req_days :
  (req_days = 0 → split_days M ordered req_days = Raise ZeroDivisionError) ∧
  (req_days < 0 → split_days M ordered req_days = Ok ([], zero)).
Proof.
  split.
  - intros ->. done.
  - intros Hneg. rewrite /split_days /per_day_of.
    destruct (Z.eqb_spec req_days 0); [lia|]. cbn [mbind result_bind].
    rewrite /pylist.range seqZ_nil //. lia.
Qed.

(** X11. One day holds the whole route, and the total is the length of the
    path through it. *)
Theorem split_days_one_day ordered :
  split_days M ordered 1 =
    (total ← add_distances M (adjacent ordered) zero ;
     Ok ([mkDayPlan 1 (_id <$> ordered)], total)).
Proof.
  rewrite (split_days_slices _ _ _ (Z.max 1 (pylist.len ordered))).
  { rewrite /per_day_of /=. by rewrite Z.div_1_r Z.mod_1_r Z.add_0_r. }
  cbv zeta. change (pylist.range 0 1) with [0].
  rewrite day_slices_cons. cbv zeta.
  rewrite slice_nonneg; [lia|]. rewrite take_ge.
  { rewrite length_drop /pylist.len. lia. }
  change (Z.to_nat (0 * _)) with 0%nat. rewrite drop_0 andb_false_r.
  cbn [day_slices fmap list_fmap mjoin list_join plans_from].
  by rewrite app_nil_r.
Qed.

End PartitionMore.

(** ** More on the handlers *)

Section HandlersMore.

Variable M : libm.
Variable new_id : db → string.

Lemma split_days_raises ordered req_days :
  0 < req_days → raises_only math_error (split_days M ordered req_days).
Proof.
  intros Hdays.
  destruct (per_day_of_defined (pylist.len ordered) req_days Hdays) as [pd Hpd].
  rewrite (split_days_slices _ _ _ pd) //. cbv zeta.
  apply raises_only_bind; [apply add_distances_raises|].
  intros; apply raises_only_Ok.
Qed.

Lemma generate_itinerary_Ok_inv req s id it s' :
  generate_itinerary M new_id req s = (Ok (id, it), s') →
  ∃ ordered ds total,
    order_by_proximity M (place_point <$> user_places (req_user_id req) s)
      = Ok ordered ∧
    split_days M ordered (req_days req) = Ok (ds, total) ∧
    id = new_id (after_get (req_user_id req) s) ∧
    it = itinerary_of req ds total ∧
    s' = mkDb (place_coll s) (itinerary_coll s ++ [(id, it)])
           (calls s ++ [CallGetDocuments "place" (req_user_id req);
                        CallCreateDocument "itinerary"]).
Proof.
  rewrite generate_itinerary_unfold. cbv zeta.
  case_bool_decide; [done|].
  destruct (order_by_proximity M _) as [ordered|e]; [|done].
  destruct (split_days M ordered _) as [[ds total]|e] eqn:Hsplit; [|done].
  intros [= <- <- <-]. exists ordered, ds, total.
  split_and!; try done. by rewrite /= -assoc_L.
Qed.

Lemma generate_itinerary_Raise_inv req s e s' :
  generate_itinerary M new_id req s = (Raise e, s') →
  s' = after_get (req_user_id req) s.
Proof.
  rewrite generate_itinerary_unfold. cbv zeta.
  case_bool_decide; [by intros [= <- <-]|].
  destruct (order_by_proximity M _) as [ordered|e']; [|by intros [= <- <-]].
  destruct (split_days M ordered _) as [[ds total]|e']; [done|by intros [= <- <-]].
Qed.

(** X12. A successful request stores exactly the itinerary it returns, under
    the identifier it returns, after one query for the places; the places
    are untouched and the itinerary carries the request's user, start date
    and title (the default title when none or an empty one is given). *)
Theorem generate_itinerary_persists req s id it s' :
  generate_itinerary M new_id req s = (Ok (id, it), s') →
  id = new_id (after_get (req_user_id req) s) ∧
  place_coll s' = place_coll s ∧
  itinerary_coll s' = itinerary_coll s ++ [(id, it)] ∧
  calls s' = calls s ++ [CallGetDocuments "place" (req_user_id req);
                         CallCreateDocument "itinerary"] ∧
  user_id it = req_user_id req ∧
  start_date it = req_start_date req ∧
  title it = match req_title req with
             | Some t => if bool_decide (t = "") then "Smart Itinerary" else t
             | None => "Smart Itinerary"
             end.
Proof.
  intros (ordered & ds & total & _ & _ & -> & -> & ->)%generate_itinerary_Ok_inv.
  by split_and!.
Qed.

(** X13. A request that fails creates nothing: the collections are as they
    were and the only call made to the store is the query for the places. *)
Theorem generate_itinerary_failure_creates_nothing req s e s' :
  generate_itinerary M new_id req s = (Raise e, s') →
  place_coll s' = place_coll s ∧
  itinerary_coll s' = itinerary_coll s ∧
  calls s' = calls s ++ [CallGetDocuments "place" (req_user_id req)].
Proof. by intros ->%generate_itinerary_Raise_inv. Qed.

(** X14. For a request within the bounds of [GenerateRequest], the handler
    raises nothing but the HTTP 400 of a user without places and the errors
    of the distance function. *)
Theorem generate_itinerary_exceptions req s e s' :
  GenerateRequest_valid req →
  generate_itinerary M new_id req s = (Raise e, s') →
  e = HTTPException 400 "No saved places found for this user" ∨ math_error e.
Proof.
  intros [Hdays _]. rewrite generate_itinerary_unfold. cbv zeta.
  case_bool_decide; [intros [= <- <-]; by left|].
  destruct (order_by_proximity M _) as [ordered|e'] eqn:Hord.
  - destruct (split_days M ordered _) as [[ds total]|e'] eqn:Hsplit; [done|].
    intros [= <- <-]. right. eapply split_days_raises; [|done]. lia.
  - intros [= <- <-]. right. by eapply order_by_proximity_raises.
Qed.

(** X15. The itinerary visits every saved place of the user exactly once, and
    no place of anyone else. *)
Theorem generate_itinerary_visits_each_place_once req s id it s' :
  0 < req_days req →
  generate_itinerary M new_id req s = (Ok (id, it), s') →
  mjoin (place_ids <$> days it) ≡ₚ doc_id <$> user_places (req_user_id req) s.
Proof.
  intros Hdays. rewrite generate_itinerary_unfold. cbv zeta.
  case_bool_decide; [done|].
  destruct (order_by_proximity M _) as [ordered|e] eqn:Hord; [|done].
  destruct (split_days M ordered _) as [[ds total]|e] eqn:Hsplit; [|done].
  intros [= <- <- <-]. simpl.
  rewrite (split_days_place_ids M ordered (req_days req) ds total) //.
  apply order_by_proximity_Permutation in Hord. rewrite Hord.
  by rewrite -list_fmap_compose.
Qed.

Variable new_place_id : db → string.

Lemma in_bounds_finite lo hi x :
  is_finite (of_int lo) = true → is_finite (of_int hi) = true →
  in_bounds lo hi x = true → is_finite x = true.
Proof.
  rewrite /in_bounds. intros Hlo Hhi [H1 H2]%andb_true_iff.
  destruct x as [s|[]| |s m e]; try done.
  - by destruct (of_int lo) as [|[]| |].
  - by destruct (of_int hi) as [|[]| |].
Qed.

(** X16. A place whose latitude or longitude is out of bounds is refused and
    the store is left exactly as it was, without any call. *)
Theorem save_place_out_of_bounds payload s :
  in_bounds (-90) 90 (sp_latitude payload) = false ∨
  in_bounds (-180) 180 (sp_longitude payload) = false →
  save_place new_place_id payload s = (Raise ValueError, s).
Proof.
  intros Hout. rewrite /save_place /mbind /stateE_bind /lift /Place_of.
  by destruct Hout as [-> | ->]; rewrite ?andb_false_r.
Qed.

(** X17. A place within bounds is stored; listing the places of its user then
    gives the places the user had, followed by the new one, and the lists
    of the other users are what they were. *)
Theorem save_place_then_list payload s :
  in_bounds (-90) 90 (sp_latitude payload) = true →
  in_bounds (-180) 180 (sp_longitude payload) = true →
  ∃ s1,
    save_place new_place_id payload s = (Ok (new_place_id s), s1) ∧
    itinerary_coll s1 = itinerary_coll s ∧
    (∀ user, ∃ s2,
       list_places user s1 =
         (Ok (if bool_decide (sp_user_id payload = user)
              then user_places user s ++
                   [mkPlace (new_place_id s) (sp_user_id payload)
                      (sp_name payload) (sp_latitude payload)
                      (sp_longitude payload) (sp_category payload)
                      (sp_notes payload)]
              else user_places user s), s2)).
Proof.
  intros Hlat Hlon. eexists. split_and!.
  - by rewrite /save_place /mbind /stateE_bind /lift /Place_of Hlat Hlon.
  - done.
  - intros user. eexists.
    rewrite /list_places /mbind /stateE_bind /get_documents_place /=.
    rewrite filter_app /user_places. do 2 f_equal.
    case_bool_decide.
    + by rewrite filter_cons_True.
    + by rewrite filter_cons_False // app_nil_r.
Qed.

(** X18. Every endpoint keeps the stored coordinates within bounds, hence
    finite: the planner is never handed an infinity or a NaN. *)
Theorem endpoints_keep_places_in_bounds s :
  places_in_bounds s →
  (∀ payload r s', save_place new_place_id payload s = (r, s') →
     places_in_bounds s') ∧
  (∀ req r s', generate_itinerary M new_id req s = (r, s') →
     places_in_bounds s') ∧
  (∀ user r s', list_places user s = (r, s') → places_in_bounds s') ∧
  (∀ user r s', list_itineraries user s = (r, s') → places_in_bounds s') ∧
  (∀ user, Forall (λ p, is_finite (latitude p) = true ∧
                         is_finite (longitude p) = true)
             (place_point <$> user_places user s)).
Proof.
  intros Hinv. split_and!.
  - intros payload r s'.
    rewrite /save_place /mbind /stateE_bind /lift /Place_of.
    destruct (in_bounds (-90) 90 _) eqn:Hlat; [|by intros [= <- <-]].
    destruct (in_bounds (-180) 180 _) eqn:Hlon; [|by intros [= <- <-]].
    intros [= <- <-]. apply Forall_app. split; [done|].
    by apply Forall_singleton.
  - intros req [[id it]|e] s' Hgen.
    + by apply generate_itinerary_Ok_inv in Hgen as (? & ? & ? & _ & _ & _ & _ & ->).
    + by apply generate_itinerary_Raise_inv in Hgen as ->.
  - by intros user r s' [= <- <-].
  - by intros user r s' [= <- <-].
  - intros user. apply Forall_fmap, Forall_forall. intros d Hd.
    apply list_elem_of_filter in Hd as [_ Hd].
    rewrite /places_in_bounds Forall_forall in Hinv.
    destruct (Hinv d Hd) as [Hlat Hlon]. simpl.
    split; by eapply in_bounds_finite; [| |done].
Qed.

(** X19. Listing the itineraries of a user after a successful request gives
    the itineraries listed before, followed by the one just generated. *)
Theorem generate_then_list_itineraries req s id it s' :
  generate_itinerary M new_id req s = (Ok (id, it), s') →
  ∃ s'',
    list_itineraries (req_user_id req) s' =
      (Ok (filter (λ d, user_id d.2 = req_user_id req) (itinerary_coll s)
           ++ [(id, it)]), s'').
Proof.
  intros Hgen.
  apply generate_itinerary_Ok_inv in Hgen as (? & ds & total & _ & _ & _ & -> & ->).
  eexists. rewrite /list_itineraries /mbind /stateE_bind /get_documents_itinerary /=.
  by rewrite filter_app filter_cons_True.
Qed.

End HandlersMore.

(** * The further properties at sample inputs *)

Section MoreWitnesses.

Import Sample SampleApi.

Lemma haversine_km_same_point_witness :
  haversine_km glibc (of_int 8) (of_int 0) (of_int 8) (of_int 0) = Ok zero.
Proof.
  apply (haversine_km_same_point glibc (of_int 8) (of_int 0) cos_rad8);
    vm_compute; reflexivity.
Defined.

Lemma glibc_odd_sin_odd x : c_sin glibc_odd (SFopp x) = SFopp (c_sin glibc_odd x).
Proof.
  rewrite /glibc_odd /= /odd_part.
  destruct x as [[]|[]| |[] m e]; cbn [sign_bit SFopp negb];
    by rewrite ?opp_involutive.
Qed.

Lemma glibc_odd_pow_even x : c_pow glibc_odd (SFopp x) two = c_pow glibc_odd x two.
Proof.
  rewrite /glibc_odd /=.
  by rewrite mul_opp_l (mul_comm x (SFopp x)) mul_opp_l opp_involutive.
Qed.

Lemma haversine_km_symmetric_witness :
  haversine_km glibc_odd (of_int 0) (of_int 180) (of_int 0) (of_int 0) =
    haversine_km glibc_odd (of_int 0) (of_int 0) (of_int 0) (of_int 180) ∧
  haversine_km glibc_odd (of_int 0) (of_int 0) (of_int 0) (of_int 180) =
    Ok half_turn_km.
Proof.
  split.
  - exact (haversine_km_symmetric glibc_odd glibc_odd_sin_odd glibc_odd_pow_even
             (of_int 0) (of_int 0) (of_int 0) (of_int 180)).
  - vm_compute. reflexivity.
Defined.

Lemma order_by_proximity_NoDup_ids_witness :
  NoDup (_id <$> [A1; A2; B1]).
Proof.
  apply (order_by_proximity_NoDup_ids glibc [A1; B1; A2] [A1; A2; B1]);
    [apply (bool_decide_unpack _); vm_compute; exact I|vm_compute; reflexivity].
Defined.

Lemma order_by_proximity_relabel_witness :
  order_by_proximity glibc
    ((λ p, Point "anonymous" (name p) (latitude p) (longitude p) None) <$>
       [A1; B1; A2]) =
  fmap (M := result)
    (fmap (λ p, Point "anonymous" (name p) (latitude p) (longitude p) None))
    (order_by_proximity glibc [A1; B1; A2]).
Proof.
  apply (order_by_proximity_relabel glibc
           (λ p, Point "anonymous" (name p) (latitude p) (longitude p) None)).
  intros p. split; reflexivity.
Defined.

Lemma order_by_proximity_aborts_witness :
  ∃ e, order_by_proximity glibc [N8; A1; S8] = Raise e ∧ math_error e.
Proof.
  apply (order_by_proximity_aborts glibc N8 [A1; S8] S8 ValueError).
  - apply (bool_decide_unpack _). vm_compute. exact I.
  - vm_compute. reflexivity.
Defined.

Lemma order_by_proximity_nan_first_witness :
  dist_to glibc (latitude A1) (longitude A1) A2 = Ok zero ∧
  order_by_proximity glibc [A1; nowhere; A2] = Ok [A1; nowhere; A2] ∧
  [A1; nowhere; A2] !! 1%nat = Some nowhere.
Proof.
  split; [vm_compute; reflexivity|]. split; [vm_compute; reflexivity|].
  apply (order_by_proximity_nan_first glibc A1 nowhere [A2] [A1; nowhere; A2]);
    vm_compute; reflexivity.
Defined.

Lemma day_plans_numbered_witness :
  Z.of_nat (length [mkDayPlan 1 ["a1"; "a2"; "a3"]; mkDayPlan 2 ["b1"; "b2"]]) ≤ 2 ∧
  ∀ k d, [mkDayPlan 1 ["a1"; "a2"; "a3"]; mkDayPlan 2 ["b1"; "b2"]] !! k = Some d →
         day d = Z.of_nat k + 1.
Proof.
  apply (day_plans_numbered glibc [A1; A2; A3; B1; B2] 2 _ zero);
    [reflexivity|vm_compute; reflexivity].
Defined.

Lemma day_plans_sizes_witness :
  (pylist.len [mkDayPlan 1 ["a1"; "a2"; "a3"]; mkDayPlan 2 ["b1"; "b2"]] - 1) * 3
    < pylist.len [A1; A2; A3; B1; B2]
    ≤ pylist.len [mkDayPlan 1 ["a1"; "a2"; "a3"]; mkDayPlan 2 ["b1"; "b2"]] * 3.
Proof.
  apply (day_plans_sizes glibc [A1; A2; A3; B1; B2] 2 3 _ zero);
    [discriminate|reflexivity|reflexivity|vm_compute; reflexivity].
Defined.

Lemma split_days_empty_route_witness :
  split_days glibc [] 3 = Ok ([mkDayPlan 1 []], zero).
Proof. apply (split_days_empty_route glibc 3). reflexivity. Defined.

Lemma split_days_nonpositive_witness :
  split_days glibc [A1; B1] 0 = Raise ZeroDivisionError ∧
  split_days glibc [A1; B1] (-2) = Ok ([], zero).
Proof.
  split.
  - apply (proj1 (split_days_nonpositive glibc [A1; B1] 0)). reflexivity.
  - apply (proj2 (split_days_nonpositive glibc [A1; B1] (-2))). reflexivity.
Defined.

Lemma generate_itinerary_persists_witness :
  ∃ id it s',
    generate_itinerary glibc new_id (request "ann" 1) store = (Ok (id, it), s') ∧
    itinerary_coll s' = [(id, it)] ∧ title it = "Smart Itinerary".
Proof.
  destruct (generate_itinerary glibc new_id (request "ann" 1) store)
    as [[[id it]|e] s'] eqn:Hgen; [|vm_compute in Hgen; discriminate].
  destruct (generate_itinerary_persists glibc new_id (request "ann" 1) store
              id it s' Hgen) as (_ & _ & Hit & _ & _ & _ & Htitle).
  exists id, it, s'. split; [reflexivity|]. split; [exact Hit|exact Htitle].
Defined.

Lemma generate_itinerary_failure_creates_nothing_witness :
  ∃ e s',
    generate_itinerary glibc new_id (request "dan" 1) antipodal_store = (Raise e, s') ∧
    itinerary_coll s' = [].
Proof.
  destruct (generate_itinerary glibc new_id (request "dan" 1) antipodal_store)
    as [[[id it]|e] s'] eqn:Hgen; [vm_compute in Hgen; discriminate|].
  destruct (generate_itinerary_failure_creates_nothing glibc new_id
              (request "dan" 1) antipodal_store e s' Hgen) as (_ & Hit & _).
  exists e, s'. split; [reflexivity|exact Hit].
Defined.

Lemma generate_itinerary_exceptions_witness :
  ∃ e s',
    generate_itinerary glibc new_id (request "dan" 1) antipodal_store = (Raise e, s') ∧
    (e = HTTPException 400 "No saved places found for this user" ∨ math_error e).
Proof.
  destruct (generate_itinerary glibc new_id (request "dan" 1) antipodal_store)
    as [[[id it]|e] s'] eqn:Hgen; [vm_compute in Hgen; discriminate|].
  exists e, s'. split; [reflexivity|].
  apply (generate_itinerary_exceptions glibc new_id (request "dan" 1)
           antipodal_store e s'); [split; vm_compute; discriminate|exact Hgen].
Defined.

Lemma generate_itinerary_visits_each_place_once_witness :
  ∃ id it s',
    generate_itinerary glibc new_id (request "ann" 2) store = (Ok (id, it), s') ∧
    mjoin (place_ids <$> days it) ≡ₚ ["a1"; "b1"; "a2"].
Proof.
  destruct (generate_itinerary glibc new_id (request "ann" 2) store)
    as [[[id it]|e] s'] eqn:Hgen; [|vm_compute in Hgen; discriminate].
  exists id, it, s'. split; [reflexivity|].
  apply (generate_itinerary_visits_each_place_once glibc new_id (request "ann" 2)
           store id it s'); [reflexivity|exact Hgen].
Defined.

Lemma save_place_out_of_bounds_witness :
  save_place new_place_id (payload "ann" "north of the pole" 91 0) store =
    (Raise ValueError, store).
Proof.
  apply (save_place_out_of_bounds new_place_id). left. vm_compute. reflexivity.
Defined.

Lemma save_place_then_list_witness :
  ∃ s1,
    save_place new_place_id (payload "ann" "harbour" 10 20) store
      = (Ok "place-new", s1) ∧
    itinerary_coll s1 = [].
Proof.
  destruct (save_place_then_list new_place_id (payload "ann" "harbour" 10 20) store)
    as (s1 & Hsave & Hit & _); [vm_compute; reflexivity..|].
  exists s1. split; [exact Hsave|exact Hit].
Defined.

Lemma endpoints_keep_places_in_bounds_witness :
  Forall (λ p, is_finite (latitude p) = true ∧ is_finite (longitude p) = true)
    (place_point <$> user_places "ann" store).
Proof.
  destruct (endpoints_keep_places_in_bounds glibc new_id new_place_id store)
    as (_ & _ & _ & _ & Hfinite).
  - unfold places_in_bounds. apply (bool_decide_unpack _). vm_compute. exact I.
  - exact (Hfinite "ann").
Defined.

Lemma generate_then_list_itineraries_witness :
  ∃ id it s' s'',
    generate_itinerary glibc new_id (request "ann" 1) store = (Ok (id, it), s') ∧
    list_itineraries "ann" s' = (Ok [(id, it)], s'').
Proof.
  destruct (generate_itinerary glibc new_id (request "ann" 1) store)
    as [[[id it]|e] s'] eqn:Hgen; [|vm_compute in Hgen; discriminate].
  destruct (generate_then_list_itineraries glibc new_id (request "ann" 1) store
              id it s' Hgen) as [s'' Hlist].
  exists id, it, s', s''. split; [reflexivity|exact Hlist].
Defined.

End MoreWitnesses.
